(** * ClusterSourceSimulations: overlap simulator and current integrator

    Shallow embedding of the two scripts of the repository:

    - [ParticleOverlap/overlaparea.py]: the per-trial kernel (lines 41-178):
      heights [Z], the copy-pasted relaxation sweeps, the area-loss
      accounting and the coverage [Ratio];
    - [CurrentIntegration/STM312currentintegration.py]: the class
      [IntegrateCurrent] (constructor, the two coverage conversions and
      [integrate]).

    numpy's float64 values are idealised as real numbers ([R]); the integer
    array [Z] of the overlap script is a list of integers ([Z] of Rocq).
    The particle count [N], the literal 2000 of the script, is a parameter.
    The constructor of [IntegrateCurrent] is the one place where the floats
    keep their special values: [float] accepts ['inf'] and ['nan'] and the
    constructor stores them, and squaring a radius raises [OverflowError]
    beyond the largest double; the object it returns has numbers of type
    [pyfloat].  The conversions and [integrate] are modelled on objects
    whose numbers are finite.

    Line 16 of [overlaparea.py] is the bare name [test], on which the script
    stops with a [NameError] when run as it is; the kernel embedded here is
    what the trials do once execution gets past that line.  The [print] of
    line 156 and the plotting are left out.  *)

From Stdlib Require Import String Ascii.
From Stdlib Require Import Reals Lra Lia ZArith List Bool Arith.
From Stdlib Require Import Sorted Machin.
Import ListNotations.

(** ** Array helpers shared by both scripts *)

(** [a[n] = v] on an array held as a list.  numpy raises [IndexError] out of
    range; every index used below comes from [np.where] over an array of the
    same length, so the out-of-range case (here: no change) is never reached. *)
Fixpoint setitem {A : Type} (l : list A) (n : nat) (v : A) : list A :=
  match l, n with
  | [], _ => []
  | _ :: t, O => v :: t
  | h :: t, S n' => h :: setitem t n' v
  end.

(** [np.sum] of a float array; the sum of the empty array is [0.0]. *)
Definition np_sum (l : list R) : R := fold_right Rplus 0%R l.

(** Conversion of a float to an integer by C cast / Python's [int]:
    truncation toward zero. *)
Definition trunc (r : R) : Z :=
  if Rle_dec 0 r then Int_part r else (- Int_part (- r))%Z.

(** [np.where(D < r)[0]]: the ascending indices whose entry is below [r]. *)
Definition where_lt (D : list R) (r : R) : list nat :=
  filter (fun j => if Rlt_dec (nth j D 0%R) r then true else false)
         (seq 0 (length D)).

(** ** The overlap simulator, [ParticleOverlap/overlaparea.py] *)

Module Overlap.
Open Scope R_scope.

(** Line 7: [Psize = 3.8]. *)
Definition Psize : R := 3.8.

(** Line 26: [SApar = 4*math.pi*(3.8/2)**2]. *)
Definition SApar : R := 4 * PI * (3.8 / 2) ^ 2.

(** [Positions] is a 2 x N array; entry [j] of the list is the column
    [(Positions[0, j], Positions[1, j])]. *)
Definition positions := list (R * R).

(** [Z = np.full((N), 1)]: an integer fill value makes an integer array. *)
Definition heights := list Z.

Definition full (n : nat) (v : Z) : heights := repeat v n.

(** One entry of [Distance1] (lines 55, 61, 148). *)
Definition dist3 (pi : R * R) (zi : Z) (pj : R * R) (zj : Z) : R :=
  sqrt ((fst pi - fst pj) ^ 2 + (snd pi - snd pj) ^ 2 + IZR ((zi - zj) ^ 2)).

(** [Distance1 = np.sqrt((Positions[x,i] - Positions[x,:])**2
                 + (Positions[y,i] - Positions[y,:])**2 + (Z[i]-Z[:])**2)]. *)
Definition Distance1 (P : positions) (Zs : heights) (i : nat) : list R :=
  map (fun pz => dist3 (nth i P (0, 0)) (nth i Zs 0%Z) (fst pz) (snd pz))
      (combine P Zs).

(** Ghost record of one execution of line 62,
    [Z[g] = Z[g] + np.sqrt((Psize*10)**2 - Distance1[g]**2)]. *)
Record adjustment := {
  adj_i : nat;          (* the current particle *)
  adj_g : nat;          (* the contacted neighbour *)
  adj_base : Z;         (* Z[g] when line 62 starts (after line 60, if taken) *)
  adj_radicand : R;     (* the argument of np.sqrt *)
  adj_new : Z           (* the value stored in Z[g] *)
}.

Definition resolver_state : Type := heights * list adjustment.

(** Body of [for g in index[0]] (lines 57-62). *)
Definition contact_step (P : positions) (i : nat)
    (st : heights * list R * list adjustment) (g : nat)
    : heights * list R * list adjustment :=
  let '(Zs, D, log) := st in
  if Nat.eqb g i then st
  else
    let '(Zs1, D1) :=
      if Z.eqb (nth g Zs 0%Z) (nth i Zs 0%Z) then (Zs, D)
      else let Zs' := setitem Zs g (nth i Zs 0%Z) in (Zs', Distance1 P Zs' i) in
    let rad := (Psize * 10) ^ 2 - (nth g D1 0) ^ 2 in
    let v := trunc (IZR (nth g Zs1 0%Z) + sqrt rad) in
    (setitem Zs1 g v, D1,
     log ++ [ {| adj_i := i; adj_g := g; adj_base := nth g Zs1 0%Z;
                 adj_radicand := rad; adj_new := v |} ]).

(** Body of [for i, a in enumerate(Positions[0])] (lines 54-62). *)
Definition particle_step (P : positions) (st : resolver_state) (i : nat)
    : resolver_state :=
  let '(Zs, log) := st in
  let D := Distance1 P Zs i in
  let index := where_lt D 35 in
  let '(Zs', _, log') := fold_left (contact_step P i) index (Zs, D, log) in
  (Zs', log').

(** One relaxation sweep: one of the blocks starting at lines
    53, 63, 73, 83, 93, 103, 113 and 123. *)
Definition sweep (P : positions) (st : resolver_state) : resolver_state :=
  fold_left (particle_step P) (seq 0 (length P)) st.

(** Lines 53-132, block after block as the source has them. *)
Definition resolver (P : positions) (st : resolver_state) : resolver_state :=
  let st := sweep P st in   (* line 53 *)
  let st := sweep P st in   (* line 63 *)
  let st := sweep P st in   (* line 73 *)
  let st := sweep P st in   (* line 83 *)
  let st := sweep P st in   (* line 93 *)
  let st := sweep P st in   (* line 103 *)
  let st := sweep P st in   (* line 113 *)
  let st := sweep P st in   (* line 123 *)
  st.

(** Lines 145-168 for particle [i]: the two partial sums and [sumloss]. *)
Definition olapsum (P : positions) (Zs : heights) (i : nat) : R :=
  let D := Distance1 P Zs i in
  let index := where_lt D (Psize * 10 + 5) in
  np_sum (map (fun _ => 8.4) (filter (fun b => negb (Nat.eqb b i)) index)).

Definition btomsum (Zs : heights) (i : nat) : R :=
  np_sum (if Z.ltb (nth i Zs 0%Z) 5 then [12] else []).

Definition sumloss (P : positions) (Zs : heights) (i : nat) : R :=
  let s := olapsum P Zs i + btomsum Zs i in
  if Rge_dec s SApar then SApar else s.

(** Line 176: [Area = np.sum(sumlosses)]. *)
Definition Area (P : positions) (Zs : heights) : R :=
  np_sum (map (sumloss P Zs) (seq 0 (length P))).

Section Trial.
(** The particle count, the literal [2000] of lines 27 and 41. *)
Variable N : nat.

(** Line 27: [SAtotal = 2000*SApar]. *)
Definition SAtotal : R := INR N * SApar.

(** Line 178: [Ratio = (SAtotal-Area)/SAtotal]. *)
Definition Ratio (P : positions) (Zs : heights) : R :=
  (SAtotal - Area P Zs) / SAtotal.

(** One trial from the sampled positions on (lines 51-178). *)
Definition trial (P : positions) : R :=
  Ratio P (fst (resolver P (full N 1, []))).
End Trial.

(** *** Invariants of the resolver *)

(** Squared planar distance between particles [i] and [g]. *)
Definition planar2 (P : positions) (i g : nat) : R :=
  (fst (nth i P (0, 0)) - fst (nth g P (0, 0))) ^ 2
  + (snd (nth i P (0, 0)) - snd (nth g P (0, 0))) ^ 2.

(** What holds of every recorded execution of line 62. *)
Record adjustment_ok (P : positions) (a : adjustment) : Prop := {
  ok_distinct : adj_g a <> adj_i a;
  ok_contact : sqrt (planar2 P (adj_i a) (adj_g a)) < 35;
  ok_radicand :
    adj_radicand a = (Psize * 10) ^ 2 - sqrt (planar2 P (adj_i a) (adj_g a)) ^ 2;
  ok_base : (1 <= adj_base a)%Z;
  ok_new : adj_new a = (adj_base a + Int_part (sqrt (adj_radicand a)))%Z
}.

(** Invariant of the loop over [index[0]] for the current particle [i]:
    every neighbour still to visit holds its up-to-date 3D distance in
    [Distance1], and that distance is below the contact radius. *)
Definition contact_inv (P : positions) (i : nat)
    (Zs : heights) (D : list R) (rest : list nat) : Prop :=
  length Zs = length P /\ Forall (fun z => (1 <= z)%Z) Zs
  /\ (i < length P)%nat /\ NoDup rest
  /\ forall j, In j rest ->
       (j < length P)%nat
       /\ nth j D 0 = dist3 (nth i P (0, 0)) (nth i Zs 0%Z)
                            (nth j P (0, 0)) (nth j Zs 0%Z)
       /\ nth j D 0 < 35.

(** The state between two iterations of the loop over the particles. *)
Definition sweep_inv (P : positions) (st : resolver_state) : Prop :=
  length (fst st) = length P /\ Forall (fun z => (1 <= z)%Z) (fst st)
  /\ Forall (adjustment_ok P) (snd st).

End Overlap.

(** ** The resolver on clouds with integer coordinates

    An executable mirror of the resolver for clouds whose coordinates are
    whole numbers: squared distances are kept instead of distances, so every
    test and every stored height is computed in integer arithmetic.  It is
    proved below to compute what [Overlap.resolver] computes on such a cloud,
    and serves to evaluate the resolver on concrete clouds. *)

Module OverlapGrid.
Open Scope Z_scope.

Definition gpositions := list (Z * Z).

Definition embed (P : gpositions) : Overlap.positions :=
  map (fun p => (IZR (fst p), IZR (snd p))) P.

(** The square of one entry of [Distance1]. *)
Definition dist3sq (pi : Z * Z) (zi : Z) (pj : Z * Z) (zj : Z) : Z :=
  (fst pi - fst pj) ^ 2 + (snd pi - snd pj) ^ 2 + (zi - zj) ^ 2.

Definition Distance1sq (P : gpositions) (Zs : list Z) (i : nat) : list Z :=
  map (fun pz => dist3sq (nth i P (0, 0)) (nth i Zs 0) (fst pz) (snd pz))
      (combine P Zs).

(** [np.where(Distance1 < 35)] read on the squares: below [35 * 35]. *)
Definition where_sq_lt (D : list Z) (r2 : Z) : list nat :=
  filter (fun j => nth j D 0 <? r2) (seq 0 (length D)).

(** [trunc (z + sqrt m)] for integers [z] and [m]. *)
Definition trunc_add_sqrt (z m : Z) : Z :=
  let s := Z.sqrt m in
  if 0 <=? z + s then z + s
  else if (s * s =? m) || (m <? 0) then z + s
  else z + s + 1.

Record gadjustment := {
  gadj_i : nat;
  gadj_g : nat;
  gadj_base : Z;
  gadj_radicand : Z;
  gadj_new : Z
}.

Definition embed_adj (a : gadjustment) : Overlap.adjustment :=
  {| Overlap.adj_i := gadj_i a; Overlap.adj_g := gadj_g a;
     Overlap.adj_base := gadj_base a;
     Overlap.adj_radicand := IZR (gadj_radicand a);
     Overlap.adj_new := gadj_new a |}.

Definition contact_step (P : gpositions) (i : nat)
    (st : list Z * list Z * list gadjustment) (g : nat)
    : list Z * list Z * list gadjustment :=
  let '(Zs, D, log) := st in
  if Nat.eqb g i then st
  else
    let '(Zs1, D1) :=
      if Z.eqb (nth g Zs 0) (nth i Zs 0) then (Zs, D)
      else let Zs' := setitem Zs g (nth i Zs 0) in (Zs', Distance1sq P Zs' i) in
    let rad := 1444 - nth g D1 0 in
    let v := trunc_add_sqrt (nth g Zs1 0) rad in
    (setitem Zs1 g v, D1,
     log ++ [ {| gadj_i := i; gadj_g := g; gadj_base := nth g Zs1 0;
                 gadj_radicand := rad; gadj_new := v |} ]).

Definition particle_step (P : gpositions)
    (st : list Z * list gadjustment) (i : nat) : list Z * list gadjustment :=
  let '(Zs, log) := st in
  let D := Distance1sq P Zs i in
  let index := where_sq_lt D 1225 in
  let '(Zs', _, log') := fold_left (contact_step P i) index (Zs, D, log) in
  (Zs', log').

Definition sweep (P : gpositions) (st : list Z * list gadjustment)
    : list Z * list gadjustment :=
  fold_left (particle_step P) (seq 0 (length P)) st.

(** A squared distance read back as the distance. *)
Definition sq_root (k : Z) : R := sqrt (IZR k).

Definition embed3 (st : list Z * list Z * list gadjustment)
    : Overlap.heights * list R * list Overlap.adjustment :=
  let '(Zs, D, log) := st in (Zs, map sq_root D, map embed_adj log).

Definition embed_state (st : list Z * list gadjustment)
    : Overlap.resolver_state :=
  (fst st, map embed_adj (snd st)).

(** A cloud of 27 particles on which the relaxation has not settled after
    seven sweeps. *)
Definition dense_cloud : gpositions :=
  [(7, 29); (35, 23); (22, 46); (18, 46); (51, 16); (5, 27); (34, 17);
   (24, 5); (41, 12); (19, 30); (13, 52); (10, 56); (15, 36); (15, 53);
   (13, 46); (57, 38); (29, 17); (38, 41); (10, 46); (37, 6); (53, 27);
   (17, 7); (2, 13); (42, 43); (32, 24); (35, 5); (39, 50)].

End OverlapGrid.

(** ** The current integrator, [CurrentIntegration/STM312currentintegration.py] *)

Module Current.
Open Scope R_scope.

(** *** Python strings *)

(** [s.split(sep)] for a one-character separator: never empty. *)
Fixpoint split (sep : ascii) (s : string) : list string :=
  match s with
  | EmptyString => [EmptyString]
  | String c s' =>
      if Ascii.eqb c sep then EmptyString :: split sep s'
      else match split sep s' with
           | [] => [String c EmptyString]
           | w :: ws => String c w :: ws
           end
  end.

Definition char_in (c : ascii) (chars : list ascii) : bool :=
  existsb (Ascii.eqb c) chars.

Fixpoint lstrip (chars : list ascii) (s : string) : string :=
  match s with
  | EmptyString => EmptyString
  | String c s' => if char_in c chars then lstrip chars s' else s
  end.

Definition rev_string (s : string) : string :=
  string_of_list_ascii (rev (list_ascii_of_string s)).

(** [s.strip(chars)]. *)
Definition strip (chars : list ascii) (s : string) : string :=
  rev_string (lstrip chars (rev_string (lstrip chars s))).

(** [c.upper()] on ASCII letters. *)
Definition upper_ascii (c : ascii) : ascii :=
  let n := nat_of_ascii c in
  if (97 <=? n)%nat && (n <=? 122)%nat then ascii_of_nat (n - 32) else c.

Fixpoint upper (s : string) : string :=
  match s with
  | EmptyString => EmptyString
  | String c s' => String (upper_ascii c) (upper s')
  end.

(** *** Outcomes *)

Inductive exception :=
| ValueError | IndexError | AttributeError | TypeError | UnboundLocalError
| OverflowError.

(** What a call ends with: a value, a raised exception, or a float that is
    infinite or NaN, where the real-number reading of the floats stops. *)
Inductive result (A : Type) :=
| Ok (a : A)
| Raise (e : exception)
| NonFinite.
Arguments Ok {A} a.
Arguments Raise {A} e.
Arguments NonFinite {A}.

Definition bind {A B : Type} (r : result A) (k : A -> result B) : result B :=
  match r with
  | Ok a => k a
  | Raise e => Raise e
  | NonFinite => NonFinite
  end.

Notation "x <- r ;; k" := (bind r (fun x => k))
  (at level 61, r at next level, right associativity).

(** The lines written by [print]. *)
Inductive message :=
| MsgModelValue                       (* 'MODEL must have either "NP" or "SA"' *)
| MsgNotRecognized (param value : string)
| MsgModelNotChosen                   (* 'Model not chosen!' *)
| MsgSingleAtoms                      (* 'Single atoms model not implemented yet!' *)
| MsgIntegral (integral : R)          (* line 117 *)
| MsgExceeded (target_coverage present_coverage : R)      (* line 134 *)
| MsgClusters (pmol : R)                                  (* line 135 *)
| MsgTime (pmol present_coverage target_coverage : R) (hr mn sec : Z). (* 145 *)

(** *** The object *)

Inductive model_kind := NP | SA.

(** A Python float: a real number, an infinity or a NaN. *)
Inductive pyfloat := Fin (r : R) | PosInf | NegInf | NaN.

(** The attributes of an [IntegrateCurrent] object, with numbers of type
    [F].  An attribute that [__init__] assigns only under a key
    ([leak_current], the two areas, [sa_density]) is [None] while it does
    not exist. *)
Record object (F : Type) := {
  debugging : bool;
  model : option model_kind;
  target : option (list F);
  time : list F;
  leak_current : option F;
  area_particle : option F;
  area_aperture : option F;
  sa_density : option F;
  data : list (R * R)              (* rows (time, current) *)
}.
Arguments debugging {F} o.
Arguments model {F} o.
Arguments target {F} o.
Arguments time {F} o.
Arguments leak_current {F} o.
Arguments area_particle {F} o.
Arguments area_aperture {F} o.
Arguments sa_density {F} o.
Arguments data {F} o.

(** An object whose numbers are all finite, floats read as reals: what
    the conversions and [integrate] are modelled on.  The constructor
    returns an [object pyfloat], since [float] accepts ['inf'] and ['nan']
    and stores them. *)
Definition IntegrateCurrent := object R.

Definition set_debugging {F : Type} v (o : object F) : object F :=
  {| debugging := v; model := model o; target := target o; time := time o;
     leak_current := leak_current o; area_particle := area_particle o;
     area_aperture := area_aperture o; sa_density := sa_density o;
     data := data o |}.
Definition set_model {F : Type} v (o : object F) : object F :=
  {| debugging := debugging o; model := v; target := target o; time := time o;
     leak_current := leak_current o; area_particle := area_particle o;
     area_aperture := area_aperture o; sa_density := sa_density o;
     data := data o |}.
Definition set_target {F : Type} v (o : object F) : object F :=
  {| debugging := debugging o; model := model o; target := v; time := time o;
     leak_current := leak_current o; area_particle := area_particle o;
     area_aperture := area_aperture o; sa_density := sa_density o;
     data := data o |}.
Definition set_time {F : Type} v (o : object F) : object F :=
  {| debugging := debugging o; model := model o; target := target o; time := v;
     leak_current := leak_current o; area_particle := area_particle o;
     area_aperture := area_aperture o; sa_density := sa_density o;
     data := data o |}.
Definition set_leak_current {F : Type} v (o : object F) : object F :=
  {| debugging := debugging o; model := model o; target := target o;
     time := time o; leak_current := v; area_particle := area_particle o;
     area_aperture := area_aperture o; sa_density := sa_density o;
     data := data o |}.
Definition set_area_particle {F : Type} v (o : object F) : object F :=
  {| debugging := debugging o; model := model o; target := target o;
     time := time o; leak_current := leak_current o; area_particle := v;
     area_aperture := area_aperture o; sa_density := sa_density o;
     data := data o |}.
Definition set_area_aperture {F : Type} v (o : object F) : object F :=
  {| debugging := debugging o; model := model o; target := target o;
     time := time o; leak_current := leak_current o;
     area_particle := area_particle o; area_aperture := v;
     sa_density := sa_density o; data := data o |}.
Definition set_sa_density {F : Type} v (o : object F) : object F :=
  {| debugging := debugging o; model := model o; target := target o;
     time := time o; leak_current := leak_current o;
     area_particle := area_particle o; area_aperture := area_aperture o;
     sa_density := v; data := data o |}.
Definition set_data {F : Type} v (o : object F) : object F :=
  {| debugging := debugging o; model := model o; target := target o;
     time := time o; leak_current := leak_current o;
     area_particle := area_particle o; area_aperture := area_aperture o;
     sa_density := sa_density o; data := v |}.

(** Lines 37-38: the attributes before the loop over the items. *)
Definition fresh {F : Type} : object F :=
  {| debugging := false; model := None; target := None; time := [];
     leak_current := None; area_particle := None; area_aperture := None;
     sa_density := None; data := [] |}.

(** The finite object, its numbers seen as floats. *)
Definition as_float (o : IntegrateCurrent) : object pyfloat :=
  {| debugging := debugging o; model := model o;
     target := option_map (map Fin) (target o); time := map Fin (time o);
     leak_current := option_map Fin (leak_current o);
     area_particle := option_map Fin (area_particle o);
     area_aperture := option_map Fin (area_aperture o);
     sa_density := option_map Fin (sa_density o); data := data o |}.

(** *** [__init__] *)

(** Lines 5-7, [parse_bool_string]; [string[0]] of the empty string raises
    [IndexError]. *)
Definition parse_bool_string (s : string) : result bool :=
  match s with
  | EmptyString => Raise IndexError
  | String c _ =>
      Ok (Ascii.eqb (upper_ascii c) "T" || String.eqb (upper s) "ON"
          || Ascii.eqb (upper_ascii c) "Y")
  end.

(** What Python's builtin [float] makes of a string: a float, which may be
    an infinity or a NaN ([float('inf')], [float('nan')]), or a
    [ValueError]. *)
Inductive parsed :=
| Parsed (x : pyfloat)
| Invalid.

(** The largest double, [sys.float_info.max]. *)
Definition float_max : R := IZR (2 ^ 1024 - 2 ^ 971).

(** [x / 2. * k] for a constant [0 < k <= 1]: a finite float stays finite,
    an infinity or a NaN stays what it is. *)
Definition half_times (k : R) (x : pyfloat) : pyfloat :=
  match x with
  | Fin r => Fin (r / 2 * k)
  | _ => x
  end.

(** [x ** 2]: Python raises [OverflowError] when the square of a finite
    float is beyond the largest double; the square of an infinity is
    [inf], that of a NaN is NaN. *)
Definition square (x : pyfloat) : result pyfloat :=
  match x with
  | Fin r => if Rgt_dec (r ^ 2) float_max then Raise OverflowError
             else Ok (Fin (r ^ 2))
  | PosInf | NegInf => Ok PosInf
  | NaN => Ok NaN
  end.

(** [np.pi * x]: a product beyond the largest double is [inf], silently. *)
Definition pi_times (x : pyfloat) : pyfloat :=
  match x with
  | Fin r => if Rgt_dec (PI * r) float_max then PosInf else Fin (PI * r)
  | _ => x
  end.

(** [x > 0]: false on a NaN. *)
Definition positive (x : pyfloat) : bool :=
  match x with
  | Fin r => if Rgt_dec r 0 then true else false
  | PosInf => true
  | NegInf | NaN => false
  end.

(** Line 65: the default target list. *)
Definition default_targets : list R :=
  [5; 10; 15; 20; 25; 30; 40; 50; 75; 100; 150; 200; 300].

Section Init.
(** Python's builtin [float], not code of this repository. *)
Variable float : string -> parsed.

Definition to_float (s : string) : result pyfloat :=
  match float s with
  | Parsed x => Ok x
  | Invalid => Raise ValueError
  end.

(** [[float(val) for val in l]]. *)
Fixpoint floats (l : list string) : result (list pyfloat) :=
  match l with
  | [] => Ok []
  | s :: l' => r <- to_float s ;; rs <- floats l' ;; Ok (r :: rs)
  end.

(** Lines 44-71: one turn of [for item in string].  The [param, value]
    unpacking raises [ValueError] unless the split has exactly two parts;
    an infinity or a NaN that [float] returns is stored like any number. *)
Definition init_item (st : object pyfloat * list message) (item : string)
    : result (object pyfloat * list message) :=
  let '(self, out) := st in
  match split "=" item with
  | [param; value] =>
      if String.eqb param "LEAK_CURRENT" then
        v <- to_float value ;; Ok (set_leak_current (Some v) self, out)
      else if String.eqb param "PARTICLE_DIAMETER" then
        v <- to_float value ;;
        let radius_particle := half_times 1e-9 v in
        sq <- square radius_particle ;;
        Ok (set_area_particle (Some (pi_times sq)) self, out)
      else if String.eqb param "APERTURE_DIAMETER" then
        v <- to_float value ;;
        let radius_aperture := half_times 1e-3 v in
        sq <- square radius_aperture ;;
        Ok (set_area_aperture (Some (pi_times sq)) self, out)
      else if String.eqb param "DEBUG" then
        b <- parse_bool_string value ;; Ok (set_debugging b self, out)
      else if String.eqb param "MODEL" then
        if String.eqb value "NP" then Ok (set_model (Some NP) self, out)
        else if String.eqb value "SA" then Ok (set_model (Some SA) self, out)
        else Ok (self, out ++ [MsgModelValue])
      else if String.eqb param "SA_DENSITY" then
        v <- to_float value ;; Ok (set_sa_density (Some v) self, out)
      else if String.eqb param "TARGET" then
        v <- to_float value ;;
        if positive v then Ok (set_target (Some [v]) self, out)
        else Ok (set_target (Some (map Fin default_targets)) self, out)
      else if String.eqb param "TIME" then
        let value := strip ["["%char; "]"%char] value in
        if String.eqb value "" then Ok (self, out)
        else ts <- floats (split "," value) ;; Ok (set_time ts self, out)
      else Ok (self, out ++ [MsgNotRecognized param value])
  | _ => Raise ValueError
  end.

Fixpoint init_items (st : object pyfloat * list message)
    (items : list string) : result (object pyfloat * list message) :=
  match items with
  | [] => Ok st
  | item :: items' => st' <- init_item st item ;; init_items st' items'
  end.

(** [IntegrateCurrent(parameter_string, data)]: the object and what was
    printed.  (The [plot] argument only imports the plotting library.) *)
Definition init (parameter_string : string) (d : list (R * R))
    : result (object pyfloat * list message) :=
  let items := split ";" (strip [";"%char] parameter_string) in
  st <- init_items (fresh, []) items ;;
  Ok (set_data d (fst st), snd st).

End Init.

(** *** The coverage conversions *)

(** Attribute access: [AttributeError] while the attribute does not exist. *)
Definition attr (a : option R) : result R :=
  match a with
  | Some v => Ok v
  | None => Raise AttributeError
  end.

(** A float division; a zero divisor gives an infinity, a NaN or a
    [ZeroDivisionError], none of which is a real number. *)
Definition fdiv (x y : R) : result R :=
  if Req_dec_T y 0 then NonFinite else Ok (x / y).

(** Lines 78-88; the value [None] of Python is [Ok None]. *)
Definition convert_coverage_to_number (self : IntegrateCurrent) (coverage : R)
    : list message * result (option R) :=
  match model self with
  | None => ([MsgModelNotChosen], Ok None)
  | Some SA => ([MsgSingleAtoms], Ok None)
  | Some NP =>
      ([], aa <- attr (area_aperture self) ;;
           ap <- attr (area_particle self) ;;
           n <- fdiv (coverage / 100 * aa) ap ;;
           Ok (Some n))
  end.

(** Lines 90-100. *)
Definition convert_number_to_coverage (self : IntegrateCurrent) (number : R)
    : list message * result (option R) :=
  match model self with
  | None => ([MsgModelNotChosen], Ok None)
  | Some SA => ([MsgSingleAtoms], Ok None)
  | Some NP =>
      ([], aa <- attr (area_aperture self) ;;
           ap <- attr (area_particle self) ;;
           q <- fdiv (number * 100) aa ;;
           Ok (Some (q * ap)))
  end.

(** *** [integrate] *)

(** Line 114: [e = 1.602e-19]. *)
Definition e : R := 1.602e-19.

(** Lines 9-11, [to_pmol]. *)
Definition to_pmol (number : R) : R := number * 1e12 / 6.022e23.

(** [np.diff]. *)
Fixpoint np_diff (l : list R) : list R :=
  match l with
  | a :: (b :: _) as l' => (b - a) :: np_diff l'
  | _ => []
  end.

(** Elementwise product of two arrays of one length. *)
Fixpoint np_mul (l1 l2 : list R) : list R :=
  match l1, l2 with
  | a :: l1', b :: l2' => a * b :: np_mul l1' l2'
  | _, _ => []
  end.

(** [a[-n:]]: the last [n] entries, all of them when there are fewer. *)
Definition last_n {A : Type} (n : nat) (l : list A) : list A :=
  skipn (length l - n) l.

(** Lines 109-111: the time window.  Each line rebinds [self.data];
    [self.time[1]] raises [IndexError] when the window has one bound only,
    after the first line has taken effect. *)
Definition restrict_window (self : IntegrateCurrent)
    : IntegrateCurrent * result unit :=
  match time self with
  | [] => (self, Ok tt)
  | t0 :: rest =>
      let self1 :=
        set_data (filter (fun s => if Rge_dec (fst s) t0 then true else false)
                         (data self)) self in
      match rest with
      | [] => (self1, Raise IndexError)
      | t1 :: _ =>
          (set_data (filter (fun s => if Rle_dec (fst s) t1 then true else false)
                            (data self1)) self1, Ok tt)
      end
  end.

(** Line 115. *)
Definition net_current (leak : R) (d : list (R * R)) : list R :=
  map (fun s => Rabs (snd s + leak)) d.

(** Line 116. *)
Definition integral_of (leak : R) (d : list (R * R)) : R :=
  np_sum (np_mul (tl (net_current leak d)) (np_diff (map fst d))) / e.

(** Lines 118-119; [None] is the NaN that [np.average] gives on no sample. *)
Definition dep_rate_of (leak : R) (d : list (R * R)) : option R :=
  let sel := last_n 100 (filter (fun c => if Rgt_dec c 1e-13 then true else false)
                                (net_current leak d)) in
  match sel with
  | [] => None
  | _ => Some (np_sum sel / INR (length sel) / e)
  end.

(** Lines 123-128: the loop over the targets, with the value of
    [target_coverage] so far ([None] while unbound). *)
Fixpoint target_loop (all rest : list R) (present : R) (tc : option R)
    : option R :=
  match rest with
  | [] => tc
  | coverage :: rest' =>
      if Rge_dec coverage present then Some coverage
      else target_loop all rest' present (Some (last all 0))
  end.

(** Lines 122-145, the time-to-target predictor, from the integral and the
    deposition rate on. *)
Definition predictor (self : IntegrateCurrent) (integral : R)
    (dep_rate : option R) : list message * result unit :=
  let '(out1, r1) := convert_number_to_coverage self integral in
  match r1 with
  | Raise e => (out1, Raise e)
  | NonFinite => (out1, NonFinite)
  | Ok pc =>
    match target self with
    | None => (out1, Raise TypeError)          (* iterating over None *)
    | Some targets =>
      match targets, pc with
      | _ :: _, None => (out1, Raise TypeError)  (* coverage >= None *)
      | _, _ =>
        let present_coverage := match pc with Some v => v | None => 0 end in
        match target_loop targets targets present_coverage None with
        | None => (out1, Raise UnboundLocalError)
        | Some target_coverage =>
          let '(out2, r2) := convert_coverage_to_number self target_coverage in
          match r2 with
          | Raise e => (out1 ++ out2, Raise e)
          | NonFinite => (out1 ++ out2, NonFinite)
          | Ok None => (out1 ++ out2, Raise TypeError)   (* None < integral *)
          | Ok (Some target_number) =>
            if Rlt_dec target_number integral then
              (out1 ++ out2 ++
                 [MsgExceeded target_coverage present_coverage;
                  MsgClusters (to_pmol integral)], Ok tt)
            else
              let remaining := target_number - integral in
              match dep_rate with
              | None => (out1 ++ out2, Raise ValueError)  (* int(nan) *)
              | Some rate =>
                let time_left := remaining / rate in
                let time_hr := trunc (time_left / 3600) in
                let time_min := trunc ((time_left - IZR time_hr * 3600) / 60) in
                let time_sec :=
                  trunc (time_left - IZR time_hr * 3600 - IZR time_min * 60) in
                (out1 ++ out2 ++
                   [MsgTime (to_pmol integral) present_coverage target_coverage
                            time_hr time_min time_sec], Ok tt)
              end
          end
        end
      end
    end
  end.

(** Lines 102-145: the object afterwards, what was printed, and how the
    call ended. *)
Definition integrate (self : IntegrateCurrent)
    : IntegrateCurrent * list message * result unit :=
  match leak_current self with
  | None => (self, [], Raise AttributeError)
  | Some leak =>
      match restrict_window self with
      | (self1, Ok _) =>
          let integral := integral_of leak (data self1) in
          let dep_rate := dep_rate_of leak (data self1) in
          let '(out, r) := predictor self1 integral dep_rate in
          (self1, MsgIntegral integral :: out, r)
      | (self1, Raise e) => (self1, [], Raise e)
      | (self1, NonFinite) => (self1, [], NonFinite)
      end
  end.

(** A constant current [c] sampled [N] times, [dt] apart, from [t0] on. *)
Definition uniform_grid (t0 dt c : R) (N : nat) : list (R * R) :=
  map (fun k => (t0 + INR k * dt, c)) (seq 0 N).

(** A sample whose time lies in the window [[t0, t1]]. *)
Definition in_window (t0 t1 : R) (s : R * R) : bool :=
  (if Rge_dec (fst s) t0 then true else false)
  && (if Rle_dec (fst s) t1 then true else false).

(** The keys whose value goes through [float] directly. *)
Definition numeric_key (p : string) : bool :=
  String.eqb p "LEAK_CURRENT" || String.eqb p "PARTICLE_DIAMETER"
  || String.eqb p "APERTURE_DIAMETER" || String.eqb p "SA_DENSITY"
  || String.eqb p "TARGET".

(** The keys [__init__] tests for. *)
Definition known_key (p : string) : bool :=
  numeric_key p || String.eqb p "DEBUG" || String.eqb p "MODEL"
  || String.eqb p "TIME".

(** The squared radius of a diameter [v] in units of [k] metres does not
    overflow: no condition on an infinity or a NaN. *)
Definition radius_fits (k : R) (v : pyfloat) : Prop :=
  match v with
  | Fin r => (r / 2 * k) ^ 2 <= float_max
  | _ => True
  end.

(** An item [__init__] gets through: exactly one ['='], a value [float]
    accepts under a numeric key, with a squared radius that does not
    overflow under the two diameter keys, a non-empty value under [DEBUG],
    and under [TIME] nothing or values [float] accepts between the
    brackets. *)
Definition well_formed (float : string -> parsed) (item : string) : Prop :=
  exists param value,
    split "=" item = [param; value]
    /\ (numeric_key param = true -> exists v, float value = Parsed v)
    /\ (param = "PARTICLE_DIAMETER"%string ->
        forall v, float value = Parsed v -> radius_fits 1e-9 v)
    /\ (param = "APERTURE_DIAMETER"%string ->
        forall v, float value = Parsed v -> radius_fits 1e-3 v)
    /\ (param = "DEBUG"%string -> value <> ""%string)
    /\ (param = "TIME"%string ->
        strip ["["%char; "]"%char] value <> ""%string ->
        Forall (fun v => exists x, float v = Parsed x)
               (split "," (strip ["["%char; "]"%char] value))).

(** Python's [float] on the strings the examples use. *)
Definition example_float (s : string) : parsed :=
  if String.eqb s "0" then Parsed (Fin 0)
  else if String.eqb s "1" then Parsed (Fin 1)
  else if String.eqb s "5" then Parsed (Fin 5)
  else if String.eqb s "100" then Parsed (Fin 100)
  else if String.eqb s "1e200" then Parsed (Fin 1e200)
  else if String.eqb s "nan" then Parsed NaN
  else if String.eqb s "inf" then Parsed PosInf
  else if String.eqb s "-inf" then Parsed NegInf
  else Invalid.

(** The object built from the parameter string
    ["TARGET=100;MODEL=NP;LEAK_CURRENT=0;PARTICLE_DIAMETER=1;APERTURE_DIAMETER=1"]
    (1 nm particles, a 1 mm aperture), followed by [";TIME=[0,1]"] when [tm]
    is [[0; 1]], on the measurement [d]. *)
Definition example_self (d : list (R * R)) (tm : list R) : IntegrateCurrent :=
  {| debugging := false; model := Some NP; target := Some [100]; time := tm;
     leak_current := Some 0;
     area_particle := Some (PI * (1 / 2 * 1e-9) ^ 2);
     area_aperture := Some (PI * (1 / 2 * 1e-3) ^ 2);
     sa_density := None; data := d |}.

(** A current of 1.602e-7 A sampled at 0 s, 1 s (and 2 s). *)
Definition two_samples : list (R * R) := [(0, 1.602e-7); (1, 1.602e-7)].
Definition three_samples : list (R * R) :=
  [(0, 1.602e-7); (1, 1.602e-7); (2, 1.602e-7)].

(** The object built from the parameter string
    ["TARGET=5;MODEL=NP;LEAK_CURRENT=0;PARTICLE_DIAMETER=1;APERTURE_DIAMETER=1"]
    on the measurement [d]: the goal of the 5 % target is 5e10 particles. *)
Definition example_five (d : list (R * R)) : IntegrateCurrent :=
  {| debugging := false; model := Some NP; target := Some [5]; time := [];
     leak_current := Some 0;
     area_particle := Some (PI * (1 / 2 * 1e-9) ^ 2);
     area_aperture := Some (PI * (1 / 2 * 1e-3) ^ 2);
     sa_density := None; data := d |}.

Definition over_samples : list (R * R) := [(0, 8.01e-9); (2, 8.01e-9)].

(** 1.602e-12 A for ten seconds: 1e8 particles at 1e7 particles a second,
    4990 s short of the goal. *)
Definition slow_samples : list (R * R) := [(0, 1.602e-12); (10, 1.602e-12)].

End Current.

(** ** The overlap simulator: loadings and the aggregation over trials *)

Module Aggregate.
Import Overlap.
Open Scope R_scope.

(** Line 10: [Number_of_particles = Loading*6.022e14/370e3*3.14*(0.25)**2],
    for one entry of [Loading]. *)
Definition Number_of_particles (Loading : R) : R :=
  Loading * 6.022e14 / 370e3 * 3.14 * 0.25 ^ 2.

(** Line 12: [Area_of_particle = 4*3.14*(Psize*1e-9/2)**2]. *)
Definition Area_of_particle : R := 4 * 3.14 * (Psize * 1e-9 / 2) ^ 2.

(** Line 14: [Charge_per_particle = 340e4*Area_of_particle*1e-6]. *)
Definition Charge_per_particle : R := 340e4 * Area_of_particle * 1e-6.

(** Line 15: [Total_Theory_Charge = Number_of_particles*Charge_per_particle]. *)
Definition Total_Theory_Charge (Loading : R) : R :=
  Number_of_particles Loading * Charge_per_particle.

(** [np.mean] of a non-empty array. *)
Definition np_mean (l : list R) : R := np_sum l / INR (length l).

(** Lines 39-183 for one loading: the positions drawn by [np.random.rand]
    in the successive trials are the list [draws] (five of them in the
    source); [Ratios] collects the ratio of each trial and [MR] gets their
    mean. *)
Definition Ratios (N : nat) (draws : list positions) : list R :=
  map (trial N) draws.

Definition MR (N : nat) (draws : list positions) : R :=
  np_mean (Ratios N draws).

(** Lines 202-203: [T.append(a * MR[i])], the simulated charge of one
    loading. *)
Definition T (N : nat) (Loading : R) (draws : list positions) : R :=
  Total_Theory_Charge Loading * MR N draws.

(** [np.std] of a non-empty array: the population standard deviation. *)
Definition np_std (l : list R) : R :=
  sqrt (np_mean (map (fun x => (x - np_mean l) ^ 2) l)).

(** Line 184: [STD.append(np.std(Ratios))]. *)
Definition STD (N : nat) (draws : list positions) : R :=
  np_std (Ratios N draws).

(** Line 204: [ST.append(a*STD[i])], the error bar of one loading. *)
Definition ST (N : nat) (Loading : R) (draws : list positions) : R :=
  Total_Theory_Charge Loading * STD N draws.

(** Two draws of two particles: 50 apart (no contact, beyond the loss
    radius) and 1 apart (in contact). *)
Definition two_draws : list positions :=
  [[(0, 0); (50, 0)]; [(0, 0); (1, 0)]].

(** Line 152: [base], the number of particles whose height is below 5. *)
Definition base (Zs : heights) : nat :=
  length (filter (fun z => Z.ltb z 5) Zs).

(** The number of neighbours of particle [i] charged at line 160. *)
Definition neighbours (P : positions) (Zs : heights) (i : nat) : nat :=
  length (filter (fun b => negb (Nat.eqb b i))
                 (where_lt (Distance1 P Zs i) (Psize * 10 + 5))).

(** No two distinct particles are in contact: every pair is at 3D distance
    35 or more. *)
Definition settled (P : positions) (Zs : heights) : Prop :=
  forall i j, (i < length P)%nat -> (j < length P)%nat -> i <> j ->
    35 <= dist3 (nth i P (0, 0)) (nth i Zs 0%Z) (nth j P (0, 0)) (nth j Zs 0%Z).

(** All pairs of distinct particles are at planar distance [r] or more. *)
Definition spread (r : R) (P : positions) : Prop :=
  forall i j, (i < length P)%nat -> (j < length P)%nat -> i <> j ->
    r <= sqrt (planar2 P i j).

End Aggregate.

(** ** The current integrator: notions used to state its properties *)

Module CurrentAux.
Import Current.
Open Scope R_scope.

(** The sample times do not decrease. *)
Definition time_sorted (d : list (R * R)) : Prop :=
  StronglySorted Rle (map fst d).

(** Some item of the list splits at ['='] into the key [k] and a value. *)
Definition has_key (k : string) (items : list string) : bool :=
  existsb (fun item =>
             match split "=" item with
             | [param; _] => String.eqb param k
             | _ => false
             end) items.

(** The key of an item that splits at ['='] in two. *)
Definition item_key (item : string) : option string :=
  match split "=" item with
  | [param; _] => Some param
  | _ => None
  end.

(** The items [__init__] loops over. *)
Definition items_of (parameter_string : string) : list string :=
  split ";" (strip [";"%char] parameter_string).

(** A float that is not negative: a number between 0 and the largest
    double, [inf], or a NaN. *)
Definition not_negative (x : pyfloat) : Prop :=
  match x with
  | Fin r => 0 <= r <= float_max
  | PosInf | NaN => True
  | NegInf => False
  end.

(** What [__init__] establishes on the attributes it sets: the target is
    the default list or one float that is [> 0]; an area is not negative. *)
Record constructed (self : object pyfloat) : Prop := {
  c_target :
    forall ts, target self = Some ts ->
      ts = map Fin default_targets
      \/ exists v, ts = [v] /\ positive v = true;
  c_area_particle : forall a, area_particle self = Some a -> not_negative a;
  c_area_aperture : forall a, area_aperture self = Some a -> not_negative a
}.

(** The two notices [__init__] prints (lines 59 and 71). *)
Definition printed_by_init (m : message) : Prop :=
  m = MsgModelValue \/ exists param value, m = MsgNotRecognized param value.

(** The test of line 118, [net_current > 1e-13]. *)
Definition qualifies (c : R) : bool := if Rgt_dec c 1e-13 then true else false.

(** Every character of the string is in [chars]. *)
Fixpoint only_chars (chars : list ascii) (s : string) : bool :=
  match s with
  | EmptyString => true
  | String c s' => char_in c chars && only_chars chars s'
  end.

End CurrentAux.

(** * Properties *)

(** ** Array helpers *)

Lemma setitem_length {A : Type} (l : list A) n v :
  length (setitem l n v) = length l.
Proof.
  revert n; induction l as [|h t IH]; intros [|n]; simpl; auto.
Qed.

Lemma setitem_nth_same {A : Type} (l : list A) n v d :
  (n < length l)%nat -> nth n (setitem l n v) d = v.
Proof.
  revert n; induction l as [|h t IH]; intros [|n] H; simpl in *; try lia; auto.
  apply IH; lia.
Qed.

Lemma setitem_nth_other {A : Type} (l : list A) n m v d :
  n <> m -> nth m (setitem l n v) d = nth m l d.
Proof.
  revert n m; induction l as [|h t IH]; intros [|n] [|m] H; simpl; auto;
    congruence.
Qed.

Lemma where_lt_In D r j :
  In j (where_lt D r) <-> (j < length D)%nat /\ (nth j D 0 < r)%R.
Proof.
  unfold where_lt. rewrite filter_In, in_seq.
  destruct (Rlt_dec (nth j D 0%R) r); intuition (try lia; try discriminate).
Qed.

Lemma where_lt_NoDup D r : NoDup (where_lt D r).
Proof. unfold where_lt. apply NoDup_filter, seq_NoDup. Qed.

Lemma np_sum_bounds (l : list R) (lo hi : R) :
  Forall (fun v => lo <= v <= hi)%R l ->
  (INR (length l) * lo <= np_sum l <= INR (length l) * hi)%R.
Proof.
  induction 1 as [|v l Hv _ IH].
  - simpl; lra.
  - change (np_sum (v :: l)) with (v + np_sum l)%R.
    change (length (v :: l)) with (S (length l)). rewrite S_INR. lra.
Qed.

Lemma np_sum_const_nonneg (c : R) (l : list nat) :
  (0 <= c)%R -> (0 <= np_sum (map (fun _ => c) l))%R.
Proof.
  intros Hc. induction l as [|a l IH]; simpl; [lra|].
  change (fold_right Rplus 0%R (map (fun _ => c) l))
    with (np_sum (map (fun _ => c) l)). lra.
Qed.

(** ** The overlap simulator: area-loss accounting *)

Module OverlapAccounting.
Import Overlap.
Open Scope R_scope.

Lemma SApar_lower : 43 < SApar.
Proof. unfold SApar. pose proof PI2_3_2. lra. Qed.

Lemma olapsum_nonneg P Zs i : 0 <= olapsum P Zs i.
Proof. unfold olapsum. apply np_sum_const_nonneg. lra. Qed.

Lemma btomsum_cases Zs i :
  btomsum Zs i = if Z.ltb (nth i Zs 0%Z) 5 then 12 else 0.
Proof. unfold btomsum. destruct (Z.ltb _ _); simpl; lra. Qed.

Lemma sumloss_bounds P Zs i : 0 <= sumloss P Zs i <= SApar.
Proof.
  unfold sumloss. pose proof SApar_lower. pose proof (olapsum_nonneg P Zs i).
  rewrite btomsum_cases.
  destruct (Rge_dec _ _) as [Hge|Hlt]; [lra|].
  destruct (Z.ltb _ _); lra.
Qed.

Lemma Area_bounds P Zs : 0 <= Area P Zs <= INR (length P) * SApar.
Proof.
  unfold Area.
  assert (H : Forall (fun v => 0 <= v <= SApar)
                     (map (sumloss P Zs) (seq 0 (length P)))).
  { apply Forall_forall. intros v Hv. apply in_map_iff in Hv.
    destruct Hv as (i & <- & _). apply sumloss_bounds. }
  apply np_sum_bounds in H. rewrite length_map, length_seq in H. lra.
Qed.

(** C1.  For every particle count [N >= 1] and every configuration of
    positions and heights, the coverage ratio of the area-loss accounting
    (per-particle loss of 8.4 per neighbour within the loss radius plus 12
    below height 5, capped at [SApar]; [SAtotal = N * SApar]) lies in
    [[0, 1]]. *)
Theorem Ratio_in_unit_interval (N : nat) (P : positions) (Zs : heights) :
  (1 <= N)%nat -> length P = N -> 0 <= Ratio N P Zs <= 1.
Proof.
  intros HN HP.
  pose proof (Area_bounds P Zs) as HA. rewrite HP in HA.
  pose proof SApar_lower as HS.
  assert (HNR : 1 <= INR N) by (apply (le_INR 1); exact HN).
  assert (Hpos : 0 < SAtotal N) by (unfold SAtotal; nra).
  unfold Ratio. fold (SAtotal N) in HA.
  split.
  - apply Rmult_le_pos; [lra | left; apply Rinv_0_lt_compat; exact Hpos].
  - apply (Rmult_le_reg_r (SAtotal N)); [exact Hpos|].
    unfold Rdiv. rewrite Rmult_assoc, Rinv_l by lra. lra.
Qed.

Lemma Ratio_in_unit_interval_witness :
  0 <= Ratio 1 [(0, 0)] [1%Z] <= 1.
Proof.
  apply (Ratio_in_unit_interval 1 [(0, 0)] [1%Z]); [lia | reflexivity].
Defined.

End OverlapAccounting.

(** ** The overlap simulator: a cloud of one particle *)

Module OverlapSingle.
Import Overlap.
Open Scope R_scope.

Lemma where_lt_single (d r : R) : where_lt [d] r = [0%nat] \/ where_lt [d] r = [].
Proof.
  unfold where_lt; simpl. destruct (Rlt_dec d r); auto.
Qed.

Lemma particle_step_single (p : R * R) (z : Z) (log : list adjustment) :
  particle_step [p] ([z], log) 0 = ([z], log).
Proof.
  unfold particle_step, Distance1; simpl.
  destruct (where_lt_single (dist3 p z p z) 35) as [-> | ->]; reflexivity.
Qed.

Lemma sweep_single (p : R * R) (z : Z) (log : list adjustment) :
  sweep [p] ([z], log) = ([z], log).
Proof. unfold sweep; simpl. apply particle_step_single. Qed.

Lemma resolver_single (p : R * R) (z : Z) (log : list adjustment) :
  resolver [p] ([z], log) = ([z], log).
Proof. unfold resolver. now rewrite !sweep_single. Qed.

Lemma olapsum_single (p : R * R) (z : Z) : olapsum [p] [z] 0 = 0.
Proof.
  unfold olapsum, Distance1; simpl.
  destruct (where_lt_single (dist3 p z p z) (Psize * 10 + 5)) as [-> | ->];
    reflexivity.
Qed.

Lemma Area_single (p : R * R) (z : Z) :
  Area [p] [z] = if Z.ltb z 5 then 12 else 0.
Proof.
  unfold Area, sumloss; simpl.
  rewrite olapsum_single, OverlapAccounting.btomsum_cases; simpl.
  pose proof OverlapAccounting.SApar_lower.
  destruct (Z.ltb z 5); destruct (Rge_dec _ _); lra.
Qed.

(** C7.  With exactly one particle the resolver leaves its height at 1 and
    records no adjustment; the total lost area is then exactly the
    base-layer penalty 12; for any height of the lone particle the lost
    area is 12 below the floor 5 and 0 at or above it; the per-neighbour
    contact penalty sum is 0 whatever the height. *)
Theorem single_particle_loss (p : R * R) :
  resolver [p] (full 1 1, []) = ([1%Z], [])
  /\ Area [p] (fst (resolver [p] (full 1 1, []))) = 12
  /\ (forall z : Z, Area [p] [z] = if Z.ltb z 5 then 12 else 0)
  /\ (forall z : Z, olapsum [p] [z] 0 = 0).
Proof.
  assert (Hres : resolver [p] (full 1 1, []) = ([1%Z], []))
    by apply resolver_single.
  repeat split.
  - exact Hres.
  - rewrite Hres; simpl fst. now rewrite Area_single.
  - intros z; apply Area_single.
  - intros z; apply olapsum_single.
Qed.

End OverlapSingle.

(** ** The overlap simulator: what every stacking adjustment does *)

Module OverlapResolver.
Import Overlap.
Open Scope R_scope.

Lemma planar2_nonneg P i g : 0 <= planar2 P i g.
Proof. unfold planar2. apply Rplus_le_le_0_compat; apply pow2_ge_0. Qed.

Lemma trunc_add_nonneg (z : Z) (s : R) :
  (0 <= z)%Z -> 0 <= s -> trunc (IZR z + s) = (z + Int_part s)%Z.
Proof.
  intros Hz Hs. unfold trunc.
  assert (0 <= IZR z) by (apply IZR_le; exact Hz).
  destruct (Rle_dec 0 (IZR z + s)) as [_|Hn]; [|lra].
  symmetry. apply Int_part_spec. rewrite plus_IZR.
  pose proof (base_Int_part s). lra.
Qed.

Lemma Distance1_length P Zs i :
  length Zs = length P -> length (Distance1 P Zs i) = length P.
Proof.
  intros H. unfold Distance1. rewrite length_map, length_combine, H.
  apply Nat.min_id.
Qed.

Lemma Distance1_nth P Zs i j :
  length Zs = length P -> (j < length P)%nat ->
  nth j (Distance1 P Zs i) 0
  = dist3 (nth i P (0, 0)) (nth i Zs 0%Z) (nth j P (0, 0)) (nth j Zs 0%Z).
Proof.
  intros HL Hj. unfold Distance1.
  set (f := fun pz : R * R * Z =>
              dist3 (nth i P (0, 0)) (nth i Zs 0%Z) (fst pz) (snd pz)).
  rewrite (nth_indep _ 0 (f ((0, 0), 0%Z))).
  - rewrite map_nth, combine_nth by (symmetry; exact HL). reflexivity.
  - rewrite length_map, length_combine, HL, Nat.min_id. exact Hj.
Qed.

Lemma dist3_same_height pi pj z :
  dist3 pi z pj z = sqrt ((fst pi - fst pj) ^ 2 + (snd pi - snd pj) ^ 2).
Proof.
  unfold dist3. f_equal. replace (z - z)%Z with 0%Z by lia. simpl. lra.
Qed.

Lemma planar_le_dist3 pi zi pj zj :
  sqrt ((fst pi - fst pj) ^ 2 + (snd pi - snd pj) ^ 2) <= dist3 pi zi pj zj.
Proof.
  unfold dist3. apply sqrt_le_1_alt.
  assert (0 <= IZR ((zi - zj) ^ 2)) by (apply IZR_le; nia). lra.
Qed.

Lemma Forall_setitem {A : Type} (Q : A -> Prop) (l : list A) n v :
  Forall Q l -> Q v -> Forall Q (setitem l n v).
Proof.
  intros Hl Hv. revert n.
  induction Hl as [|h t Hh Ht IH]; intros [|n]; simpl; auto.
Qed.

Lemma Forall_nth_Z (Q : Z -> Prop) (l : list Z) n :
  Forall Q l -> (n < length l)%nat -> Q (nth n l 0%Z).
Proof.
  intros Hl Hn. rewrite Forall_forall in Hl. apply Hl, nth_In, Hn.
Qed.

Lemma contact_step_inv P i Zs D log g rest :
  contact_inv P i Zs D (g :: rest) -> Forall (adjustment_ok P) log ->
  let '(Zs', D', log') := contact_step P i (Zs, D, log) g in
  contact_inv P i Zs' D' rest /\ Forall (adjustment_ok P) log'.
Proof.
  intros (HL & HZ & Hi & Hnd & Hrest) Hlog.
  inversion Hnd as [|? ? Hnotin Hnd']; subst.
  unfold contact_step.
  destruct (Nat.eqb g i) eqn:Egi.
  { split; [|exact Hlog]. repeat split; auto.
    all: intros; apply Hrest; now right. }
  apply Nat.eqb_neq in Egi.
  destruct (Hrest g (or_introl eq_refl)) as (Hg & HDg & HDlt).
  assert (Hzi : (1 <= nth i Zs 0)%Z)
    by (apply (Forall_nth_Z (fun z => (1 <= z)%Z)); [exact HZ | lia]).
  set (zi := nth i Zs 0%Z) in *.
  set (d := sqrt (planar2 P i g)).
  assert (Hd0 : 0 <= d) by apply sqrt_pos.
  assert (Hdlt : d < 35).
  { eapply Rle_lt_trans; [|exact HDlt]. rewrite HDg. apply planar_le_dist3. }
  assert (Hd2 : d ^ 2 <= 35 ^ 2) by (apply pow_incr; lra).
  assert (Hrad : 0 <= (Psize * 10) ^ 2 - d ^ 2) by (unfold Psize; lra).
  (* the state after the optional synchronisation *)
  assert (Hsync : exists Zs1 D1,
    (if Z.eqb (nth g Zs 0%Z) zi then (Zs, D)
     else (setitem Zs g zi, Distance1 P (setitem Zs g zi) i)) = (Zs1, D1)
    /\ length Zs1 = length P /\ Forall (fun z => (1 <= z)%Z) Zs1
    /\ nth g Zs1 0%Z = zi /\ nth g D1 0 = d
    /\ (forall j, j <> g -> nth j Zs1 0%Z = nth j Zs 0%Z)
    /\ (forall j, In j rest -> nth j D1 0 = nth j D 0)).
  { destruct (Z.eqb (nth g Zs 0%Z) zi) eqn:Ez.
    - apply Z.eqb_eq in Ez. exists Zs, D. repeat split; auto.
      rewrite HDg, Ez. apply dist3_same_height.
    - exists (setitem Zs g zi), (Distance1 P (setitem Zs g zi) i).
      assert (HL1 : length (setitem Zs g zi) = length P)
        by (rewrite setitem_length; exact HL).
      assert (Hg1 : nth g (setitem Zs g zi) 0%Z = zi)
        by (apply setitem_nth_same; lia).
      assert (Hi1 : nth i (setitem Zs g zi) 0%Z = zi)
        by (rewrite setitem_nth_other; auto).
      repeat split; auto.
      + apply Forall_setitem; auto.
      + rewrite Distance1_nth, Hg1, Hi1 by auto. apply dist3_same_height.
      + intros j Hj. apply setitem_nth_other; auto.
      + intros j Hj. destruct (Hrest j (or_intror Hj)) as (Hjl & HDj & _).
        assert (j <> g) by (intros ->; contradiction).
        rewrite Distance1_nth, Hi1, setitem_nth_other, HDj by auto.
        reflexivity. }
  destruct Hsync as (Zs1 & D1 & -> & HL1 & HZ1 & Hg1 & HD1 & Hoth & HDoth).
  rewrite Hg1, HD1.
  assert (Hv : trunc (IZR zi + sqrt ((Psize * 10) ^ 2 - d ^ 2))
               = (zi + Int_part (sqrt ((Psize * 10) ^ 2 - d ^ 2)))%Z)
    by (apply trunc_add_nonneg; [lia | apply sqrt_pos]).
  split.
  - repeat split; auto.
    + rewrite setitem_length; exact HL1.
    + apply Forall_setitem; auto. rewrite Hv.
      pose proof (base_Int_part (sqrt ((Psize * 10) ^ 2 - d ^ 2))) as HB.
      pose proof (sqrt_pos ((Psize * 10) ^ 2 - d ^ 2)) as HS.
      assert (-1 < IZR (Int_part (sqrt ((Psize * 10) ^ 2 - d ^ 2)))) by lra.
      assert (-1 < Int_part (sqrt ((Psize * 10) ^ 2 - d ^ 2)))%Z
        by (apply lt_IZR; assumption).
      lia.
    + apply Hrest; now right.
    + destruct (Hrest j (or_intror H)) as (_ & HDj & _).
      assert (j <> g) by (intros ->; contradiction).
      rewrite HDoth, HDj by auto.
      rewrite !(setitem_nth_other Zs1 g) by auto.
      rewrite (Hoth j), (Hoth i) by auto. reflexivity.
    + rewrite HDoth by auto. apply Hrest; now right.
  - apply Forall_app; split; [exact Hlog|]. constructor; [|constructor].
    constructor; simpl; auto.
Qed.

Lemma contact_loop_inv P i rest : forall Zs D log,
  contact_inv P i Zs D rest -> Forall (adjustment_ok P) log ->
  let '(Zs', _, log') := fold_left (contact_step P i) rest (Zs, D, log) in
  length Zs' = length P /\ Forall (fun z => (1 <= z)%Z) Zs'
  /\ Forall (adjustment_ok P) log'.
Proof.
  induction rest as [|g rest IH]; intros Zs D log Hinv Hlog; cbn [fold_left].
  - destruct Hinv as (HL & HZ & _). auto.
  - pose proof (contact_step_inv P i Zs D log g rest Hinv Hlog) as Hstep.
    destruct (contact_step P i (Zs, D, log) g) as [[Zs1 D1] log1].
    destruct Hstep as [Hinv1 Hlog1]. apply IH; assumption.
Qed.

Lemma particle_step_inv P st i :
  (i < length P)%nat -> sweep_inv P st -> sweep_inv P (particle_step P st i).
Proof.
  destruct st as [Zs log]. intros Hi (HL & HZ & Hlog). simpl in *.
  unfold particle_step.
  assert (Hinv : contact_inv P i Zs (Distance1 P Zs i)
                             (where_lt (Distance1 P Zs i) 35)).
  { repeat split; auto using where_lt_NoDup.
    all: apply where_lt_In in H; destruct H as [Hj Hlt];
      rewrite Distance1_length in Hj by exact HL; auto.
    apply Distance1_nth; auto. }
  pose proof (contact_loop_inv P i _ Zs _ log Hinv Hlog) as Hloop.
  destruct (fold_left _ _ _) as [[Zs' D'] log']. exact Hloop.
Qed.

Lemma sweep_preserves_inv P st : sweep_inv P st -> sweep_inv P (sweep P st).
Proof.
  unfold sweep.
  assert (H : forall l, (forall i, In i l -> (i < length P)%nat) ->
            forall st, sweep_inv P st ->
            sweep_inv P (fold_left (particle_step P) l st)).
  { induction l as [|i l IH]; intros Hl st' Hst; cbn [fold_left];
      [exact Hst|].
    apply IH; [intros; apply Hl; now right|].
    apply particle_step_inv; [apply Hl; now left | exact Hst]. }
  apply H. intros i Hi. apply in_seq in Hi. lia.
Qed.

Lemma resolver_preserves_inv P st :
  sweep_inv P st -> sweep_inv P (resolver P st).
Proof.
  intros H. unfold resolver. now do 8 apply sweep_preserves_inv.
Qed.

Lemma initial_inv P : sweep_inv P (full (length P) 1, []).
Proof.
  unfold sweep_inv, full; simpl. rewrite repeat_length. repeat split; auto.
  apply Forall_forall. intros z Hz. apply repeat_spec in Hz. lia.
Qed.

Lemma trial_log_ok P :
  Forall (adjustment_ok P) (snd (resolver P (full (length P) 1, []))).
Proof. apply resolver_preserves_inv, initial_inv. Qed.

Lemma radicand_lower_bound P a : adjustment_ok P a -> 219 < adj_radicand a.
Proof.
  intros [_ Hc Hr _ _]. rewrite Hr.
  pose proof (sqrt_pos (planar2 P (adj_i a) (adj_g a))) as H0.
  assert (sqrt (planar2 P (adj_i a) (adj_g a)) ^ 2 < 35 ^ 2)
    by nra.
  unfold Psize. lra.
Qed.

(** C10.  In every sweep of a trial, at each execution of the stacking
    adjustment the argument of [np.sqrt],
    [(Psize*10)**2 - Distance1[g]**2 = 1444 - Distance1[g]**2], is strictly
    positive, so the square root is that of a positive real (never NaN) and
    every stored height is an integer. *)
Theorem sqrt_argument_positive (P : positions) :
  Forall (fun a => 0 < adj_radicand a
                   /\ exists d, 0 <= d < 35 /\ adj_radicand a = 1444 - d ^ 2)
         (snd (resolver P (full (length P) 1, []))).
Proof.
  eapply Forall_impl; [|apply trial_log_ok].
  intros a Hok. split.
  - pose proof (radicand_lower_bound P a Hok). lra.
  - exists (sqrt (planar2 P (adj_i a) (adj_g a))).
    destruct Hok as [_ Hc Hr _ _]. repeat split.
    + apply sqrt_pos.
    + exact Hc.
    + rewrite Hr. unfold Psize. lra.
Qed.

(** C4 (as the code has it).  The resolver performs eight identical
    relaxation sweeps (the blocks at lines 53, 63, 73, 83, 93, 103, 113 and
    123), each one visiting every particle in index order, selecting the
    neighbours at 3D distance below 35 and applying the
    synchronize-then-stack adjustment; the area-loss accounting of a trial
    works on the heights these eight sweeps leave, one height of at least 1
    for each of the N particles. *)
Theorem resolver_is_eight_sweeps (P : positions) :
  (forall st, resolver P st = Nat.iter 8 (sweep P) st)
  /\ (forall st,
        sweep P st = fold_left (particle_step P) (seq 0 (length P)) st)
  /\ (forall Zs log i,
        particle_step P (Zs, log) i
        = let '(Zs', _, log') :=
            fold_left (contact_step P i) (where_lt (Distance1 P Zs i) 35)
                      (Zs, Distance1 P Zs i, log) in
          (Zs', log'))
  /\ trial (length P) P
     = Ratio (length P) P
         (fst (Nat.iter 8 (sweep P) (full (length P) 1, [])))
  /\ length (fst (Nat.iter 8 (sweep P) (full (length P) 1, []))) = length P
  /\ Forall (fun z => (1 <= z)%Z)
            (fst (Nat.iter 8 (sweep P) (full (length P) 1, []))).
Proof.
  pose proof (resolver_preserves_inv P _ (initial_inv P)) as (HL & HZ & _).
  repeat split; assumption.
Qed.

(** What line 62 stores.  The heights are the integers of
    [np.full((N), 1)], all 1 at creation.  At every stacking adjustment of a
    trial, on a neighbour [g] at planar distance [d < 35] of the current
    particle, the radicand is [(Psize*10)**2 - d**2] and the height stored
    is the truncation of the neighbour's synchronized height plus the square
    root: that height plus the integer part of the root, at most the exact
    sum and less than one below it. *)
Theorem stacking_adjustment_truncates (P : positions) :
  full (length P) 1 = repeat 1%Z (length P)
  /\ Forall (fun a =>
       let d := sqrt (planar2 P (adj_i a) (adj_g a)) in
       d < 35
       /\ adj_radicand a = (Psize * 10) ^ 2 - d ^ 2
       /\ adj_new a = trunc (IZR (adj_base a) + sqrt (adj_radicand a))
       /\ adj_new a = (adj_base a + Int_part (sqrt (adj_radicand a)))%Z
       /\ IZR (adj_new a) <= IZR (adj_base a) + sqrt (adj_radicand a)
          < IZR (adj_new a) + 1)
     (snd (resolver P (full (length P) 1, []))).
Proof.
  split; [reflexivity|].
  eapply Forall_impl; [|apply trial_log_ok].
  intros a [Hd Hc Hr Hb Hn]. cbv zeta.
  pose proof (base_Int_part (sqrt (adj_radicand a))) as [Hlo Hhi].
  repeat split; auto.
  - rewrite trunc_add_nonneg; [exact Hn | lia | apply sqrt_pos].
  - rewrite Hn, plus_IZR. lra.
  - rewrite Hn, plus_IZR. lra.
Qed.

End OverlapResolver.

(** ** The integer mirror computes the resolver *)

Module OverlapGridFacts.
Import OverlapGrid.

Lemma sqrt_IZR_square (s : Z) : (0 <= s)%Z -> sqrt (IZR (s * s)) = IZR s.
Proof.
  intros Hs. rewrite mult_IZR. apply sqrt_square. now apply IZR_le.
Qed.

Lemma sqrt_IZR_lt_35 (k : Z) : (sqrt (IZR k) < 35)%R <-> (k < 1225)%Z.
Proof.
  destruct (Z_lt_le_dec k 0) as [Hneg | Hpos].
  - rewrite sqrt_neg_0 by (apply IZR_le; lia). split; [lia | lra].
  - assert (H35 : sqrt (IZR 1225) = 35%R) by (apply (sqrt_IZR_square 35); lia).
    assert (Hk : (0 <= IZR k)%R) by (now apply IZR_le).
    split; intros H.
    + apply lt_IZR. apply sqrt_lt_0_alt. rewrite H35. exact H.
    + rewrite <- H35. apply sqrt_lt_1_alt. split; [assumption|].
      now apply IZR_lt.
Qed.

Lemma sqrt_IZR_bounds (m : Z) : (0 <= m)%Z ->
  (IZR (Z.sqrt m) <= sqrt (IZR m) < IZR (Z.sqrt m) + 1)%R.
Proof.
  intros Hm. pose proof (Z.sqrt_spec m Hm) as [Hlo Hhi].
  pose proof (Z.sqrt_nonneg m) as Hs.
  split.
  - rewrite <- (sqrt_IZR_square (Z.sqrt m)) by exact Hs.
    apply sqrt_le_1_alt. now apply IZR_le.
  - replace (IZR (Z.sqrt m) + 1)%R with (IZR (Z.succ (Z.sqrt m)))
      by (rewrite succ_IZR; reflexivity).
    rewrite <- (sqrt_IZR_square (Z.succ (Z.sqrt m))) by lia.
    apply sqrt_lt_1_alt. split; [apply IZR_le; lia | now apply IZR_lt].
Qed.

Lemma sqrt_IZR_exact (m : Z) :
  (Z.sqrt m * Z.sqrt m =? m)%Z || (m <? 0)%Z = true ->
  sqrt (IZR m) = IZR (Z.sqrt m).
Proof.
  intros H. apply orb_true_iff in H. destruct H as [H | H].
  - apply Z.eqb_eq in H. rewrite <- H at 1.
    apply sqrt_IZR_square, Z.sqrt_nonneg.
  - apply Z.ltb_lt in H. rewrite Z.sqrt_neg by exact H.
    apply sqrt_neg_0. apply IZR_le. lia.
Qed.

Lemma sqrt_IZR_inexact (m : Z) :
  (Z.sqrt m * Z.sqrt m =? m)%Z || (m <? 0)%Z = false ->
  (IZR (Z.sqrt m) < sqrt (IZR m) < IZR (Z.sqrt m) + 1)%R.
Proof.
  intros H. apply orb_false_iff in H. destruct H as [Hne Hge].
  apply Z.eqb_neq in Hne. apply Z.ltb_ge in Hge.
  pose proof (sqrt_IZR_bounds m Hge) as [Hlo Hhi].
  pose proof (Z.sqrt_spec m Hge) as [Hlo' _].
  split; [|exact Hhi].
  rewrite <- (sqrt_IZR_square (Z.sqrt m)) by apply Z.sqrt_nonneg.
  apply sqrt_lt_1_alt. split; [apply IZR_le; nia | apply IZR_lt; lia].
Qed.

Lemma trunc_add_sqrt_correct (z m : Z) :
  trunc (IZR z + sqrt (IZR m)) = trunc_add_sqrt z m.
Proof.
  unfold trunc_add_sqrt, trunc.
  destruct (Z.leb_spec 0 (z + Z.sqrt m)) as [Hge | Hlt].
  - assert (Hb : (IZR (Z.sqrt m) <= sqrt (IZR m) < IZR (Z.sqrt m) + 1)%R).
    { destruct ((Z.sqrt m * Z.sqrt m =? m)%Z || (m <? 0)%Z) eqn:E.
      - rewrite (sqrt_IZR_exact m E). lra.
      - pose proof (sqrt_IZR_inexact m E). lra. }
    assert (0 <= IZR (z + Z.sqrt m))%R by (now apply IZR_le).
    rewrite plus_IZR in *.
    destruct (Rle_dec 0 (IZR z + sqrt (IZR m))) as [_ | Hn]; [|lra].
    symmetry. apply Int_part_spec. rewrite plus_IZR. lra.
  - assert (IZR (z + Z.sqrt m) <= -1)%R by (apply IZR_le; lia).
    rewrite plus_IZR in *.
    destruct ((Z.sqrt m * Z.sqrt m =? m)%Z || (m <? 0)%Z) eqn:E.
    + rewrite (sqrt_IZR_exact m E).
      destruct (Rle_dec 0 (IZR z + IZR (Z.sqrt m))) as [Hp | _]; [lra|].
      rewrite <- plus_IZR, <- opp_IZR.
      rewrite <- (Int_part_spec (IZR (- (z + Z.sqrt m))) (- (z + Z.sqrt m))).
      * lia.
      * lra.
    + pose proof (sqrt_IZR_inexact m E) as [Hlo Hhi].
      destruct (Rle_dec 0 (IZR z + sqrt (IZR m))) as [Hp | _]; [lra|].
      rewrite <- (Int_part_spec (- (IZR z + sqrt (IZR m)))
                                (- (z + Z.sqrt m + 1))).
      * lia.
      * rewrite opp_IZR, !plus_IZR. lra.
Qed.

Lemma embed_length P : length (embed P) = length P.
Proof. unfold embed. apply length_map. Qed.

Lemma embed_nth P i :
  nth i (embed P) (0, 0)%R
  = (IZR (fst (nth i P (0, 0)%Z)), IZR (snd (nth i P (0, 0)%Z))).
Proof.
  unfold embed.
  change (0, 0)%R
    with ((fun p : Z * Z => (IZR (fst p), IZR (snd p))) (0, 0)%Z).
  apply map_nth.
Qed.

Lemma IZR_sub_sq (a b : Z) : IZR ((a - b) ^ 2) = ((IZR a - IZR b) ^ 2)%R.
Proof. rewrite Z.pow_2_r, mult_IZR, minus_IZR. ring. Qed.

Lemma dist3_embed (pi pj : Z * Z) (zi zj : Z) :
  Overlap.dist3 (IZR (fst pi), IZR (snd pi)) zi (IZR (fst pj), IZR (snd pj)) zj
  = sq_root (dist3sq pi zi pj zj).
Proof.
  unfold Overlap.dist3, sq_root, dist3sq; simpl fst; simpl snd.
  now rewrite !plus_IZR, !IZR_sub_sq.
Qed.

Lemma combine_map_l {A B C : Type} (f : A -> B) (l : list A) (l' : list C) :
  combine (map f l) l' = map (fun p => (f (fst p), snd p)) (combine l l').
Proof.
  revert l'; induction l as [|a l IH]; intros [|c l']; simpl; auto.
  now rewrite IH.
Qed.

Lemma Distance1_embed P Zs i :
  Overlap.Distance1 (embed P) Zs i = map sq_root (Distance1sq P Zs i).
Proof.
  unfold Overlap.Distance1, Distance1sq.
  rewrite embed_nth. unfold embed. rewrite combine_map_l, !map_map.
  apply map_ext. intros [pj zj]; simpl fst; simpl snd. apply dist3_embed.
Qed.

Lemma dist3sq_nonneg pi zi pj zj : (0 <= dist3sq pi zi pj zj)%Z.
Proof. unfold dist3sq. nia. Qed.

Lemma Distance1sq_nonneg P Zs i :
  Forall (fun k => (0 <= k)%Z) (Distance1sq P Zs i).
Proof.
  unfold Distance1sq. apply Forall_forall. intros k Hk.
  apply in_map_iff in Hk. destruct Hk as (pz & <- & _). apply dist3sq_nonneg.
Qed.

Lemma nth_sq_root (D : list Z) (g : nat) :
  nth g (map sq_root D) 0%R = sq_root (nth g D 0%Z).
Proof.
  replace 0%R with (sq_root 0) at 1 by apply sqrt_0. apply map_nth.
Qed.

Lemma nth_nonneg (D : list Z) (g : nat) :
  Forall (fun k => (0 <= k)%Z) D -> (0 <= nth g D 0)%Z.
Proof.
  intros H. destruct (Nat.lt_ge_cases g (length D)) as [Hg | Hg].
  - rewrite Forall_forall in H. apply H, nth_In, Hg.
  - rewrite nth_overflow by exact Hg. lia.
Qed.

Lemma where_lt_embed (D : list Z) :
  where_lt (map sq_root D) 35 = where_sq_lt D 1225.
Proof.
  unfold where_lt, where_sq_lt. rewrite length_map.
  apply filter_ext. intros j. rewrite nth_sq_root. unfold sq_root.
  destruct (Rlt_dec (sqrt (IZR (nth j D 0%Z))) 35) as [H | H];
    destruct (Z.ltb_spec (nth j D 0%Z) 1225) as [H' | H']; auto.
  - apply sqrt_IZR_lt_35 in H. lia.
  - apply sqrt_IZR_lt_35 in H'. contradiction.
Qed.

Lemma radicand_embed (k : Z) : (0 <= k)%Z ->
  ((Overlap.Psize * 10) ^ 2 - sq_root k ^ 2)%R = IZR (1444 - k).
Proof.
  intros Hk. unfold sq_root, Overlap.Psize. rewrite minus_IZR.
  replace (sqrt (IZR k) ^ 2)%R with (IZR k).
  - lra.
  - simpl. rewrite Rmult_1_r. symmetry. apply sqrt_sqrt. now apply IZR_le.
Qed.

Lemma contact_step_embed P i st g :
  Forall (fun k => (0 <= k)%Z) (snd (fst st)) ->
  Overlap.contact_step (embed P) i (embed3 st) g
  = embed3 (contact_step P i st g)
  /\ Forall (fun k => (0 <= k)%Z) (snd (fst (contact_step P i st g))).
Proof.
  destruct st as [[Zs D] log]. simpl fst; simpl snd. intros HD.
  unfold Overlap.contact_step, contact_step, embed3.
  destruct (Nat.eqb g i); [split; [reflexivity | exact HD]|].
  destruct (Z.eqb (nth g Zs 0%Z) (nth i Zs 0%Z)).
  - rewrite nth_sq_root, radicand_embed by (apply nth_nonneg, HD).
    rewrite trunc_add_sqrt_correct. split; [|exact HD].
    rewrite map_app. reflexivity.
  - rewrite Distance1_embed, nth_sq_root, radicand_embed
      by (apply nth_nonneg, Distance1sq_nonneg).
    rewrite trunc_add_sqrt_correct. split; [|apply Distance1sq_nonneg].
    rewrite map_app. reflexivity.
Qed.

Lemma contact_loop_embed P i index : forall st,
  Forall (fun k => (0 <= k)%Z) (snd (fst st)) ->
  fold_left (Overlap.contact_step (embed P) i) index (embed3 st)
  = embed3 (fold_left (contact_step P i) index st).
Proof.
  induction index as [|g index IH]; intros st HD; cbn [fold_left].
  - reflexivity.
  - destruct (contact_step_embed P i st g HD) as [-> HD']. now apply IH.
Qed.

Lemma particle_step_embed P st i :
  Overlap.particle_step (embed P) (embed_state st) i
  = embed_state (particle_step P st i).
Proof.
  destruct st as [Zs log]. unfold Overlap.particle_step, particle_step,
    embed_state. simpl fst; simpl snd.
  rewrite Distance1_embed, where_lt_embed.
  change (Zs, map sq_root (Distance1sq P Zs i), map embed_adj log)
    with (embed3 (Zs, Distance1sq P Zs i, log)).
  rewrite contact_loop_embed by (simpl; apply Distance1sq_nonneg).
  destruct (fold_left _ _ _) as [[Zs' D'] log']. reflexivity.
Qed.

Lemma sweep_embed P st :
  Overlap.sweep (embed P) (embed_state st) = embed_state (sweep P st).
Proof.
  unfold Overlap.sweep, sweep. rewrite embed_length.
  generalize (seq 0 (length P)) as l. intros l; revert st.
  induction l as [|i l IH]; intros st; cbn [fold_left]; [reflexivity|].
  now rewrite particle_step_embed, IH.
Qed.

Lemma iter_sweep_embed P n st :
  Nat.iter n (Overlap.sweep (embed P)) (embed_state st)
  = embed_state (Nat.iter n (sweep P) st).
Proof.
  induction n as [|n IH]; simpl; [reflexivity|]. now rewrite IH, sweep_embed.
Qed.

Lemma resolver_iter P st :
  Overlap.resolver P st = Nat.iter 8 (Overlap.sweep P) st.
Proof. reflexivity. Qed.

Lemma trial_embed (P : gpositions) (n : nat) :
  Nat.iter n (Overlap.sweep (embed P)) (Overlap.full (length P) 1, [])
  = embed_state (Nat.iter n (sweep P) (repeat 1%Z (length P), [])).
Proof. apply (iter_sweep_embed P n (repeat 1%Z (length P), [])). Qed.

(** C6, on the code.  The claim: a stacking adjustment leaves the neighbour
    at its synchronized height plus the exact square root, with no
    truncation.  Two particles at (0, 0) and (1, 0): the only adjustment of
    the trial has radicand 1443 and stores the height 38 in the integer
    array, while the neighbour's height 1 plus the square root of 1443 is
    not 38 (it lies strictly between 38 and 39). *)
Lemma stored_height_is_truncated :
  Overlap.resolver [(0, 0); (1, 0)]%R (Overlap.full 2 1, [])
  = ([1; 38]%Z,
     [ {| Overlap.adj_i := 0; Overlap.adj_g := 1; Overlap.adj_base := 1;
          Overlap.adj_radicand := 1443; Overlap.adj_new := 38 |} ])
  /\ IZR 38 <> (IZR 1 + sqrt 1443)%R.
Proof.
  split.
  - change (Overlap.resolver [(0, 0); (1, 0)]%R (Overlap.full 2 1, []))
      with (Nat.iter 8 (Overlap.sweep (embed [(0, 0); (1, 0)]%Z))
              (Overlap.full (length [(0, 0); (1, 0)]%Z) 1, [])).
    rewrite (trial_embed [(0, 0); (1, 0)]%Z 8).
    unfold embed_state.
    replace (Nat.iter 8 (sweep [(0, 0); (1, 0)]%Z) (repeat 1%Z (length [(0, 0); (1, 0)]%Z), []))
      with ([1; 38]%Z, [ {| gadj_i := 0; gadj_g := 1; gadj_base := 1;
                            gadj_radicand := 1443; gadj_new := 38 |} ])
      by (vm_compute; reflexivity).
    reflexivity.
  - intros H.
    assert (Hs : sqrt 1443 = 37%R) by lra.
    pose proof (sqrt_sqrt 1443 ltac:(lra)) as Hsq. rewrite Hs in Hsq. lra.
Qed.

(** C4, counterexample.  On [dense_cloud] the resolver does not stop where
    seven sweeps stop: particle 9 stands at height 538 after seven sweeps
    and at 555 when the resolver ends. *)
Lemma eighth_sweep_moves_a_particle :
  fst (Nat.iter 7 (Overlap.sweep (embed dense_cloud))
         (Overlap.full (length dense_cloud) 1, []))
  = [1; 58; 85; 201; 91; 520; 141; 175; 281; 538; 238; 275; 306; 339; 451;
     1; 390; 170; 488; 318; 201; 87; 121; 260; 427; 355; 32]%Z
  /\ fst (Overlap.resolver (embed dense_cloud)
            (Overlap.full (length dense_cloud) 1, []))
     = [1; 58; 85; 201; 91; 520; 141; 175; 281; 555; 238; 275; 306; 339; 451;
        1; 390; 170; 488; 318; 201; 87; 121; 260; 427; 355; 32]%Z.
Proof.
  rewrite resolver_iter, !trial_embed. unfold embed_state. cbn [fst].
  split; vm_compute; reflexivity.
Qed.

End OverlapGridFacts.

(** ** The current integrator: integral and coverage conversions *)

Module CurrentFacts.
Import Current.
Open Scope R_scope.

Lemma e_pos : 0 < e.
Proof. unfold e. lra. Qed.

Lemma integrand_cons (leak : R) (a b : R * R) (r : list (R * R)) :
  np_sum (np_mul (tl (net_current leak (a :: b :: r)))
                 (np_diff (map fst (a :: b :: r))))
  = Rabs (snd b + leak) * (fst b - fst a)
    + np_sum (np_mul (tl (net_current leak (b :: r)))
                     (np_diff (map fst (b :: r)))).
Proof. reflexivity. Qed.

Lemma constant_grid_sum (t0 dt c : R) (n : nat) : forall k : nat,
  np_sum (np_mul
            (tl (net_current 0 (map (fun j => (t0 + INR j * dt, c))
                                    (seq k (S n)))))
            (np_diff (map fst (map (fun j => (t0 + INR j * dt, c))
                                   (seq k (S n))))))
  = INR n * (Rabs c * dt).
Proof.
  induction n as [|n IH]; intros k.
  - simpl. lra.
  - specialize (IH (S k)). cbn [seq map].
    rewrite integrand_cons. cbn [seq map] in IH |- *.
    rewrite IH. cbn [fst snd].
    rewrite !S_INR, Rplus_0_r. ring.
Qed.

Lemma integral_uniform_grid (t0 dt c : R) (N : nat) :
  integral_of 0 (uniform_grid t0 dt c N) = Rabs c * dt * INR (N - 1) / e.
Proof.
  unfold integral_of, uniform_grid. destruct N as [|n].
  - simpl. lra.
  - rewrite constant_grid_sum. replace (S n - 1)%nat with n by lia.
    f_equal. ring.
Qed.

(** C2.  For a constant current [c] on a uniform grid of [N >= 2] samples
    spaced by [dt], with leak current zero and no time window, [integrate]
    computes (and prints first) the integrated particle count
    [|c| * dt * (N-1) / e] with [e = 1.602e-19], and leaves the object as
    it was. *)
Theorem constant_current_integral (self : IntegrateCurrent)
    (t0 dt c : R) (N : nat) :
  (2 <= N)%nat ->
  leak_current self = Some 0 ->
  time self = [] ->
  data self = uniform_grid t0 dt c N ->
  integral_of 0 (data self) = Rabs c * dt * INR (N - 1) / 1.602e-19
  /\ exists out r,
       integrate self
       = (self, MsgIntegral (Rabs c * dt * INR (N - 1) / 1.602e-19) :: out, r).
Proof.
  intros _ Hleak Htime Hdata.
  assert (HI : integral_of 0 (data self)
               = Rabs c * dt * INR (N - 1) / 1.602e-19)
    by (rewrite Hdata; apply integral_uniform_grid).
  split; [exact HI|].
  unfold integrate, restrict_window. rewrite Hleak, Htime, HI.
  destruct (predictor self _ _) as [out r]. now exists out, r.
Qed.

(** C3.  For the nanoparticle model with positive particle and aperture
    areas and every [x] in [(0, 1000]], converting the coverage [x] to a
    particle number and back gives [x] again (exactly, over the reals),
    and neither conversion prints anything. *)
Theorem coverage_round_trip (self : IntegrateCurrent) (ap aa x : R) :
  model self = Some NP ->
  area_particle self = Some ap -> area_aperture self = Some aa ->
  0 < ap -> 0 < aa -> 0 < x <= 1000 ->
  exists number,
    convert_coverage_to_number self x = ([], Ok (Some number))
    /\ convert_number_to_coverage self number = ([], Ok (Some x)).
Proof.
  intros Hm Hap Haa Hpos_p Hpos_a _.
  exists (x / 100 * aa / ap).
  unfold convert_coverage_to_number, convert_number_to_coverage, fdiv.
  rewrite Hm, Hap, Haa; simpl.
  destruct (Req_dec_T ap 0) as [E | _]; [lra|].
  destruct (Req_dec_T aa 0) as [E | _]; [lra|].
  split; [reflexivity|]. cbn [bind].
  match goal with |- (_, Ok (Some ?v)) = _ =>
    replace v with x by (field; lra) end.
  reflexivity.
Qed.

Lemma constant_current_integral_witness :
  integral_of 0 (uniform_grid 0 1 1.602e-7 2)
  = Rabs 1.602e-7 * 1 * INR (2 - 1) / 1.602e-19.
Proof.
  exact (proj1 (constant_current_integral
                  (example_self (uniform_grid 0 1 1.602e-7 2) [])
                  0 1 1.602e-7 2 (le_n 2) eq_refl eq_refl eq_refl)).
Defined.

Lemma coverage_round_trip_witness :
  exists number,
    convert_coverage_to_number (example_self two_samples []) 100
    = ([], Ok (Some number))
    /\ convert_number_to_coverage (example_self two_samples []) number
       = ([], Ok (Some 100)).
Proof.
  pose proof PI_RGT_0 as Hpi.
  apply (coverage_round_trip (example_self two_samples [])
           (PI * (1 / 2 * 1e-9) ^ 2) (PI * (1 / 2 * 1e-3) ^ 2) 100);
    try reflexivity; nra.
Defined.

End CurrentFacts.

(** ** The current integrator: time-to-target predictor and frame *)

Module PredictorFacts.
Import Current.
Open Scope R_scope.

Lemma trunc_0 : trunc 0 = 0%Z.
Proof.
  unfold trunc. destruct (Rle_dec 0 0) as [_ | H]; [|lra].
  symmetry. apply Int_part_spec. simpl. lra.
Qed.

Lemma trunc_nonneg (r : R) : 0 <= r -> (0 <= trunc r)%Z /\ IZR (trunc r) <= r.
Proof.
  intros Hr. unfold trunc. destruct (Rle_dec 0 r) as [_ | H]; [|lra].
  pose proof (base_Int_part r) as [Hle Hgt]. split; [|exact Hle].
  assert (-1 < IZR (Int_part r)) by lra.
  assert (-1 < Int_part r)%Z by (apply lt_IZR; assumption). lia.
Qed.

(** The predictor on a nanoparticle configuration, branch by branch. *)
Lemma predictor_NP (self : IntegrateCurrent) (integral : R)
    (dep_rate : option R) (ap aa : R) (targets : list R) (tc : R) :
  model self = Some NP ->
  area_particle self = Some ap -> area_aperture self = Some aa ->
  ap <> 0 -> aa <> 0 ->
  target self = Some targets ->
  target_loop targets targets (integral * 100 / aa * ap) None = Some tc ->
  predictor self integral dep_rate
  = if Rlt_dec (tc / 100 * aa / ap) integral then
      ([MsgExceeded tc (integral * 100 / aa * ap);
        MsgClusters (to_pmol integral)], Ok tt)
    else
      match dep_rate with
      | None => ([], Raise ValueError)
      | Some rate =>
          let time_left := (tc / 100 * aa / ap - integral) / rate in
          let time_hr := trunc (time_left / 3600) in
          let time_min := trunc ((time_left - IZR time_hr * 3600) / 60) in
          let time_sec :=
            trunc (time_left - IZR time_hr * 3600 - IZR time_min * 60) in
          ([MsgTime (to_pmol integral) (integral * 100 / aa * ap) tc
                    time_hr time_min time_sec], Ok tt)
      end.
Proof.
  intros Hm Hap Haa Hap0 Haa0 Ht Hloop.
  unfold predictor, convert_number_to_coverage, convert_coverage_to_number,
    fdiv.
  rewrite Hm, Hap, Haa, Ht. cbn [attr bind].
  destruct (Req_dec_T aa 0) as [E | _]; [contradiction|].
  destruct (Req_dec_T ap 0) as [E | _]; [contradiction|].
  destruct targets as [|t0 targets']; [discriminate Hloop|].
  cbn [bind app]. rewrite Hloop. cbn [bind app].
  destruct (Rlt_dec _ _); destruct dep_rate; reflexivity.
Qed.

Lemma In_last_n {A : Type} (n : nat) (l : list A) (x : A) :
  In x (last_n n l) -> In x l.
Proof.
  unfold last_n. intros H. rewrite <- (firstn_skipn (length l - n) l).
  apply in_or_app. now right.
Qed.

Lemma np_sum_positive (l : list R) :
  Forall (fun c => 0 < c) l -> l <> [] -> 0 < np_sum l.
Proof.
  intros H. induction H as [|x l Hx Hl IH]; intros Hne; [congruence|].
  change (np_sum (x :: l)) with (x + np_sum l).
  destruct l as [|y l'].
  - simpl. lra.
  - assert (0 < np_sum (y :: l')) by (apply IH; discriminate). lra.
Qed.

Lemma dep_rate_of_positive (leak : R) (d : list (R * R)) (rate : R) :
  dep_rate_of leak d = Some rate -> 0 < rate.
Proof.
  unfold dep_rate_of.
  set (sel := last_n 100 _).
  assert (Hsel : Forall (fun c => 0 < c) sel).
  { apply Forall_forall. intros c Hc. apply In_last_n, filter_In in Hc.
    destruct Hc as [_ Hc].
    destruct (Rgt_dec c 1e-13) as [H | H]; [lra | discriminate]. }
  destruct sel as [|c sel'] eqn:E; [discriminate|].
  intros [= <-].
  assert (Hsum : 0 < np_sum (c :: sel'))
    by (apply np_sum_positive; [exact Hsel | discriminate]).
  assert (Hlen : 0 < INR (length (c :: sel'))) by (apply lt_0_INR; simpl; lia).
  apply Rdiv_lt_0_compat; [|exact CurrentFacts.e_pos].
  apply Rdiv_lt_0_compat; assumption.
Qed.

Lemma predictor_at_goal (self : IntegrateCurrent) (integral rate : R)
    (ap aa : R) (targets : list R) (tc : R) :
  model self = Some NP ->
  area_particle self = Some ap -> area_aperture self = Some aa ->
  ap <> 0 -> aa <> 0 ->
  target self = Some targets ->
  target_loop targets targets (integral * 100 / aa * ap) None = Some tc ->
  tc / 100 * aa / ap = integral ->
  predictor self integral (Some rate)
  = ([MsgTime (to_pmol integral) (integral * 100 / aa * ap) tc 0 0 0], Ok tt).
Proof.
  intros Hm Hap Haa Hap0 Haa0 Ht Hloop Heq.
  rewrite (predictor_NP self integral (Some rate) ap aa targets tc) by assumption.
  destruct (Rlt_dec _ _) as [Hlt | _]; [lra|]. cbv zeta.
  replace ((tc / 100 * aa / ap - integral) / rate) with 0
    by (rewrite Heq; unfold Rdiv; ring).
  replace (0 / 3600) with 0 by lra. rewrite trunc_0.
  replace ((0 - 0 * 3600) / 60) with 0 by lra. rewrite trunc_0.
  replace (0 - 0 * 3600 - 0 * 60) with 0 by lra. rewrite trunc_0.
  reflexivity.
Qed.


(** *** The worked example: 1.602e-7 A for one second

    Over the reals the goal of the 100 % target is the integrated count,
    1e12 particles.  (On doubles [100/100.*aa/ap] comes out one unit in
    the last place below 1e12; the second worked example further down,
    with a 5 % target, is exact on doubles too.) *)

Lemma example_areas_nonzero :
  PI * (1 / 2 * 1e-9) ^ 2 <> 0 /\ PI * (1 / 2 * 1e-3) ^ 2 <> 0.
Proof. pose proof PI_RGT_0. split; nra. Qed.

Lemma example_present :
  1e12 * 100 / (PI * (1 / 2 * 1e-3) ^ 2) * (PI * (1 / 2 * 1e-9) ^ 2) = 100.
Proof. pose proof PI_RGT_0. field. lra. Qed.

Lemma example_goal :
  100 / 100 * (PI * (1 / 2 * 1e-3) ^ 2) / (PI * (1 / 2 * 1e-9) ^ 2) = 1e12.
Proof. pose proof PI_RGT_0. field. lra. Qed.

Lemma example_target_loop :
  target_loop [100] [100]
    (1e12 * 100 / (PI * (1 / 2 * 1e-3) ^ 2) * (PI * (1 / 2 * 1e-9) ^ 2)) None
  = Some 100.
Proof.
  rewrite example_present. simpl.
  destruct (Rge_dec 100 100) as [_ | H]; [reflexivity | lra].
Qed.

Lemma two_samples_integral : integral_of 0 two_samples = 1e12.
Proof.
  unfold integral_of, two_samples, e; simpl.
  rewrite Rabs_pos_eq by lra. lra.
Qed.

Lemma two_samples_rate : dep_rate_of 0 two_samples = Some 1e12.
Proof.
  unfold dep_rate_of, two_samples, net_current, last_n; simpl.
  replace (1.602e-7 + 0) with 1.602e-7 by lra.
  rewrite (Rabs_pos_eq 1.602e-7) by lra.
  destruct (Rgt_dec 1.602e-7 1e-13) as [_ | H]; [|lra].
  simpl. f_equal. unfold e. lra.
Qed.

Lemma example_predictor (d : list (R * R)) (tm : list R) :
  predictor (example_self d tm) 1e12 (Some 1e12)
  = ([MsgTime (to_pmol 1e12) 100 100 0 0 0], Ok tt).
Proof.
  destruct example_areas_nonzero as [Hap Haa].
  rewrite (predictor_at_goal (example_self d tm) 1e12 1e12
             (PI * (1 / 2 * 1e-9) ^ 2) (PI * (1 / 2 * 1e-3) ^ 2) [100] 100);
    try reflexivity; try assumption.
  - now rewrite example_present.
  - apply example_target_loop.
  - apply example_goal.
Qed.

Lemma example_integrate (d d1 : list (R * R)) (tm : list R) :
  restrict_window (example_self d tm) = (example_self d1 tm, Ok tt) ->
  integral_of 0 d1 = 1e12 -> dep_rate_of 0 d1 = Some 1e12 ->
  integrate (example_self d tm)
  = (example_self d1 tm,
     [MsgIntegral 1e12; MsgTime (to_pmol 1e12) 100 100 0 0 0], Ok tt).
Proof.
  intros Hw HI HR. unfold integrate. cbn [leak_current example_self].
  fold (example_self d tm). rewrite Hw. cbn [data example_self].
  rewrite HI, HR, example_predictor. reflexivity.
Qed.

Lemma example_window :
  restrict_window (example_self three_samples [0; 1])
  = (example_self two_samples [0; 1], Ok tt).
Proof.
  unfold restrict_window, three_samples, two_samples, example_self, set_data;
    simpl.
  repeat match goal with
         | |- context [Rge_dec ?a ?b] => destruct (Rge_dec a b); try lra
         | |- context [Rle_dec ?a ?b] => destruct (Rle_dec a b); try lra
         end; simpl.
  repeat match goal with
         | |- context [Rle_dec ?a ?b] => destruct (Rle_dec a b); try lra
         end.
  reflexivity.
Qed.

(** *** The second worked example: a 5 % target, whose goal is 5e10
    particles *)

Lemma five_present (x : R) :
  x * 100 / (PI * (1 / 2 * 1e-3) ^ 2) * (PI * (1 / 2 * 1e-9) ^ 2)
  = x * 1e-10.
Proof. pose proof PI_RGT_0. field. lra. Qed.

Lemma five_goal :
  5 / 100 * (PI * (1 / 2 * 1e-3) ^ 2) / (PI * (1 / 2 * 1e-9) ^ 2) = 5e10.
Proof. pose proof PI_RGT_0. field. lra. Qed.

Lemma five_target_loop (present : R) :
  target_loop [5] [5] present None = Some 5.
Proof. simpl. destruct (Rge_dec 5 present); reflexivity. Qed.

Lemma pair_integral (c dt : R) :
  0 <= c -> integral_of 0 [(0, c); (dt, c)] = c * dt / e.
Proof.
  intros Hc. unfold integral_of; simpl.
  rewrite Rabs_pos_eq by lra. unfold e. lra.
Qed.

Lemma pair_rate (c dt : R) :
  1e-13 < c -> dep_rate_of 0 [(0, c); (dt, c)] = Some (c / e).
Proof.
  intros Hc. unfold dep_rate_of, net_current, last_n; simpl.
  replace (c + 0) with c by lra. rewrite (Rabs_pos_eq c) by lra.
  destruct (Rgt_dec c 1e-13) as [_ | H]; [|lra].
  simpl. f_equal. unfold e. lra.
Qed.



Lemma over_samples_integral : integral_of 0 over_samples = 1e11.
Proof. unfold over_samples. rewrite pair_integral by lra. unfold e. lra. Qed.

Lemma slow_samples_integral : integral_of 0 slow_samples = 1e8.
Proof. unfold slow_samples. rewrite pair_integral by lra. unfold e. lra. Qed.

Lemma slow_samples_rate : dep_rate_of 0 slow_samples = Some 1e7.
Proof.
  unfold slow_samples. rewrite pair_rate by lra. f_equal. unfold e. lra.
Qed.

Lemma five_integrate (d : list (R * R)) (integral rate : R)
    (out : list message) (r : result unit) :
  integral_of 0 d = integral -> dep_rate_of 0 d = Some rate ->
  predictor (example_five d) integral (Some rate) = (out, r) ->
  integrate (example_five d)
  = (example_five d, MsgIntegral integral :: out, r).
Proof.
  intros HI HR HP. unfold integrate. cbn [leak_current example_five].
  fold (example_five d). unfold restrict_window.
  cbn [time example_five]. fold (example_five d). cbn [data example_five].
  rewrite HI, HR, HP. reflexivity.
Qed.


Lemma trunc_eq (r : R) (z : Z) :
  0 <= r -> IZR z <= r < IZR z + 1 -> trunc r = z.
Proof.
  intros H0 [H1 H2]. unfold trunc. destruct (Rle_dec 0 r) as [_ | H]; [|lra].
  symmetry. apply Int_part_spec. lra.
Qed.

(** 1e8 particles at 1e7 a second, goal 5e10: 4990 s, printed as
    1 hr 23 min 10 sec. *)
Lemma five_predictor_slow (d : list (R * R)) :
  predictor (example_five d) 1e8 (Some 1e7)
  = ([MsgTime (to_pmol 1e8) 0.01 5 1 23 10], Ok tt).
Proof.
  destruct example_areas_nonzero as [Hap Haa].
  rewrite (predictor_NP (example_five d) 1e8 (Some 1e7)
             (PI * (1 / 2 * 1e-9) ^ 2) (PI * (1 / 2 * 1e-3) ^ 2) [5] 5);
    try reflexivity; try assumption; [|apply five_target_loop].
  rewrite five_goal, five_present.
  destruct (Rlt_dec _ _) as [Hlt | _]; [lra|]. cbv zeta.
  replace ((5e10 - 1e8) / 1e7) with 4990 by lra.
  rewrite (trunc_eq (4990 / 3600) 1) by (simpl; lra).
  rewrite (trunc_eq ((4990 - 1 * 3600) / 60) 23) by (simpl; lra).
  rewrite (trunc_eq (4990 - 1 * 3600 - 23 * 60) 10) by (simpl; lra).
  do 3 f_equal. lra.
Qed.

Lemma slow_run :
  integrate (example_five slow_samples)
  = (example_five slow_samples,
     [MsgIntegral 1e8; MsgTime (to_pmol 1e8) 0.01 5 1 23 10], Ok tt).
Proof.
  apply (five_integrate slow_samples 1e8 1e7);
    [apply slow_samples_integral | apply slow_samples_rate
    | apply five_predictor_slow].
Qed.



(** *** What [integrate] does to the object *)

Lemma filter_filter {A : Type} (f g : A -> bool) (l : list A) :
  filter g (filter f l) = filter (fun x => f x && g x) l.
Proof.
  induction l as [|a l IH]; simpl; [reflexivity|].
  destruct (f a); simpl; [destruct (g a)|]; now rewrite IH.
Qed.

Lemma restrict_window_frame (self : IntegrateCurrent) :
  set_data (data self) (fst (restrict_window self)) = self.
Proof.
  unfold restrict_window. destruct self as [? ? ? tm ? ? ? ? d]; simpl.
  destruct tm as [|t0 [|t1 rest]]; reflexivity.
Qed.

Lemma integrate_restricts (self : IntegrateCurrent) :
  fst (fst (integrate self)) = self
  \/ fst (fst (integrate self)) = fst (restrict_window self).
Proof.
  unfold integrate. destruct (leak_current self); [|now left].
  right. destruct (restrict_window self) as [self1 [[]|ex|]]; simpl;
    try reflexivity.
  destruct (predictor _ _ _); reflexivity.
Qed.

(** C8 (as the code has it).  [integrate] changes no attribute but [data];
    with no time window configured it leaves the object, and so the stored
    measurement, as it was; with a window [[t0, t1]] configured (and a leak
    current set) it rebinds [data] to the samples of the loaded measurement
    with [t0 <= time <= t1], in their order. *)
Theorem integrate_frame (self : IntegrateCurrent) :
  set_data (data self) (fst (fst (integrate self))) = self
  /\ (time self = [] -> fst (fst (integrate self)) = self)
  /\ (forall leak t0 t1 rest,
        leak_current self = Some leak -> time self = t0 :: t1 :: rest ->
        data (fst (fst (integrate self)))
        = filter (in_window t0 t1) (data self)).
Proof.
  repeat split.
  - destruct (integrate_restricts self) as [-> | ->].
    + now destruct self.
    + apply restrict_window_frame.
  - intros Ht. destruct (integrate_restricts self) as [-> | ->]; auto.
    unfold restrict_window. now rewrite Ht.
  - intros leak t0 t1 rest Hl Ht. unfold integrate. rewrite Hl.
    unfold restrict_window. rewrite Ht. cbn [data set_data].
    destruct (predictor _ _ _). cbn [fst data set_data].
    apply filter_filter.
Qed.

Lemma integrate_frame_witness :
  data (fst (fst (integrate (example_self three_samples [0; 1]))))
  = filter (in_window 0 1) (data (example_self three_samples [0; 1])).
Proof.
  exact (proj2 (proj2 (integrate_frame (example_self three_samples [0; 1])))
           0 0 1 [] eq_refl eq_refl).
Defined.

(** C8, counterexample.  With the window [[0, 1]] configured on a
    measurement sampled at 0 s, 1 s and 2 s, [integrate] returns normally
    and the stored measurement has lost the sample taken at 2 s. *)
Lemma window_drops_samples :
  snd (integrate (example_self three_samples [0; 1])) = Ok tt
  /\ data (fst (fst (integrate (example_self three_samples [0; 1]))))
     = two_samples
  /\ data (example_self three_samples [0; 1]) = three_samples
  /\ two_samples <> three_samples.
Proof.
  rewrite (example_integrate three_samples two_samples [0; 1]
             example_window two_samples_integral two_samples_rate).
  repeat split. discriminate.
Qed.

End PredictorFacts.

(** ** The current integrator: the constructor *)

Module InitFacts.
Import Current.
Open Scope string_scope.

Lemma float_max_bounds : (1e308 < float_max < 2e308)%R.
Proof.
  unfold float_max.
  let z := eval vm_compute in (2 ^ 1024 - 2 ^ 971)%Z in
  change (2 ^ 1024 - 2 ^ 971)%Z with z.
  split; lra.
Qed.

Lemma square_fits (k : R) (v : pyfloat) :
  radius_fits k v -> exists sq, square (half_times k v) = Ok sq.
Proof.
  destruct v as [r| | |]; cbn [radius_fits half_times square]; intros H;
    try (eexists; reflexivity).
  destruct (Rgt_dec _ _) as [Hgt | _]; [lra | eexists; reflexivity].
Qed.

Lemma square_overflows (k r : R) :
  (float_max < (r / 2 * k) ^ 2)%R ->
  square (half_times k (Fin r)) = Raise OverflowError.
Proof.
  intros H. cbn [half_times square].
  destruct (Rgt_dec _ _) as [_ | Hn]; [reflexivity | lra].
Qed.

(** The two areas of the worked examples: 1 nm particles, a 1 mm
    aperture. *)
Lemma example_square (k : R) :
  (0 < k <= 1)%R ->
  square (half_times k (Fin 1)) = Ok (Fin ((1 / 2 * k) ^ 2)).
Proof.
  intros Hk. pose proof float_max_bounds as Hm.
  assert (Hsq : (0 <= (1 / 2 * k) ^ 2 <= 1)%R) by nra.
  cbn [half_times square].
  destruct (Rgt_dec _ _) as [Hgt | _]; [lra | reflexivity].
Qed.

Lemma example_pi_times (k : R) :
  (0 < k <= 1)%R ->
  pi_times (Fin ((1 / 2 * k) ^ 2)) = Fin (PI * (1 / 2 * k) ^ 2).
Proof.
  intros Hk. pose proof float_max_bounds as Hm.
  pose proof PI_RGT_0 as Hpi. pose proof PI_4 as Hpi4.
  assert (Hsq : (0 <= (1 / 2 * k) ^ 2 <= 1)%R) by nra.
  cbn [pi_times].
  destruct (Rgt_dec _ _) as [Hgt | _]; [nra | reflexivity].
Qed.

Section WithFloat.
Variable float : string -> parsed.

Lemma floats_accepted (l : list string) :
  Forall (fun v => exists x, float v = Parsed x) l ->
  exists rs, floats float l = Ok rs.
Proof.
  induction 1 as [|v l [r Hr] _ [rs IH]]; simpl.
  - now exists [].
  - unfold to_float. rewrite Hr. cbn [bind]. rewrite IH. cbn [bind].
    now exists (r :: rs).
Qed.

Lemma init_item_unknown st item param value :
  split "=" item = [param; value] -> known_key param = false ->
  init_item float st item
  = Ok (fst st, (snd st ++ [MsgNotRecognized param value])%list).
Proof.
  intros Hs Hk. destruct st as [self out]. unfold init_item. rewrite Hs.
  unfold known_key, numeric_key in Hk.
  repeat (apply orb_false_iff in Hk; destruct Hk as [Hk ?]).
  repeat match goal with H : String.eqb _ _ = false |- _ =>
    rewrite H; clear H end.
  reflexivity.
Qed.

Lemma init_item_malformed st item :
  length (split "=" item) <> 2%nat -> init_item float st item = Raise ValueError.
Proof.
  intros Hl. destruct st as [self out]. unfold init_item.
  destruct (split "=" item) as [|a [|b [|c l]]]; simpl in Hl;
    try reflexivity. congruence.
Qed.

Lemma init_item_overflow st item param value (k r : R) :
  split "=" item = [param; value] ->
  (param = "PARTICLE_DIAMETER" /\ k = 1e-9%R)
  \/ (param = "APERTURE_DIAMETER" /\ k = 1e-3%R) ->
  float value = Parsed (Fin r) ->
  (float_max < (r / 2 * k) ^ 2)%R ->
  init_item float st item = Raise OverflowError.
Proof.
  intros Hs Hp Hf Hov. destruct st as [self out]. unfold init_item.
  rewrite Hs.
  destruct Hp as [[-> ->] | [-> ->]];
    cbn [String.eqb Ascii.eqb Bool.eqb andb]; unfold to_float; rewrite Hf;
    cbn [bind]; cbv zeta; rewrite (square_overflows _ r Hov); reflexivity.
Qed.

Lemma init_item_well_formed st item :
  well_formed float item -> exists st', init_item float st item = Ok st'.
Proof.
  intros (param & value & Hs & Hnum & Hpd & Had & Hdbg & Htime).
  destruct st as [self out]. unfold init_item. rewrite Hs.
  unfold numeric_key in Hnum.
  destruct (String.eqb_spec param "LEAK_CURRENT") as [-> | _].
  { destruct (Hnum eq_refl) as [r Hr]. unfold to_float. rewrite Hr.
    eexists; reflexivity. }
  destruct (String.eqb_spec param "PARTICLE_DIAMETER") as [-> | _].
  { destruct (Hnum eq_refl) as [r Hr]. unfold to_float. rewrite Hr.
    cbn [bind]. cbv zeta.
    destruct (square_fits _ r (Hpd eq_refl r Hr)) as [sq ->].
    eexists; reflexivity. }
  destruct (String.eqb_spec param "APERTURE_DIAMETER") as [-> | _].
  { destruct (Hnum eq_refl) as [r Hr]. unfold to_float. rewrite Hr.
    cbn [bind]. cbv zeta.
    destruct (square_fits _ r (Had eq_refl r Hr)) as [sq ->].
    eexists; reflexivity. }
  destruct (String.eqb_spec param "DEBUG") as [-> | _].
  { specialize (Hdbg eq_refl). destruct value; [congruence|].
    eexists; reflexivity. }
  destruct (String.eqb_spec param "MODEL") as [-> | _].
  { destruct (String.eqb value "NP"); [eexists; reflexivity|].
    destruct (String.eqb value "SA"); eexists; reflexivity. }
  destruct (String.eqb_spec param "SA_DENSITY") as [-> | _].
  { destruct (Hnum eq_refl) as [r Hr]. unfold to_float. rewrite Hr.
    eexists; reflexivity. }
  destruct (String.eqb_spec param "TARGET") as [-> | _].
  { destruct (Hnum eq_refl) as [r Hr]. unfold to_float. rewrite Hr.
    cbn [bind]. destruct (positive r); eexists; reflexivity. }
  destruct (String.eqb_spec param "TIME") as [-> | _].
  { specialize (Htime eq_refl). cbv zeta.
    destruct (String.eqb_spec (strip ["["%char; "]"%char] value) "")
      as [_ | Hne]; [eexists; reflexivity|].
    destruct (floats_accepted _ (Htime Hne)) as [rs ->].
    eexists; reflexivity. }
  eexists; reflexivity.
Qed.

Lemma init_items_well_formed items : forall st,
  Forall (well_formed float) items -> exists st', init_items float st items = Ok st'.
Proof.
  induction items as [|item items IH]; intros st H; simpl.
  - now exists st.
  - inversion H as [|? ? Hi Hrest]; subst.
    destruct (init_item_well_formed st item Hi) as [st1 ->]. cbn [bind].
    now apply IH.
Qed.

End WithFloat.

(** C9 (as the code has it).  Constructing [IntegrateCurrent] runs to
    completion, storing the measurement, whenever every item of the
    parameter string is well formed; a pair under a key that is not
    recognised only prints a message and changes nothing; an item that
    does not split at ['='] in exactly two parts raises [ValueError]; and
    a diameter whose squared radius is beyond the largest double raises
    [OverflowError]. *)
Theorem init_completes_when_well_formed (float : string -> parsed)
    (parameter_string : string) (d : list (R * R)) :
  (Forall (well_formed float) (split ";" (strip [";"%char] parameter_string)) ->
   exists self out,
     init float parameter_string d = Ok (self, out) /\ data self = d)
  /\ (forall st item param value,
        split "=" item = [param; value] -> known_key param = false ->
        init_item float st item
        = Ok (fst st, (snd st ++ [MsgNotRecognized param value])%list))
  /\ (forall st item,
        length (split "=" item) <> 2%nat ->
        init_item float st item = Raise ValueError)
  /\ (forall st item param value k r,
        split "=" item = [param; value] ->
        (param = "PARTICLE_DIAMETER" /\ k = 1e-9%R)
        \/ (param = "APERTURE_DIAMETER" /\ k = 1e-3%R) ->
        float value = Parsed (Fin r) ->
        (float_max < (r / 2 * k) ^ 2)%R ->
        init_item float st item = Raise OverflowError).
Proof.
  repeat split.
  - intros H. unfold init.
    destruct (init_items_well_formed float _ (fresh, []) H) as [[self out] ->].
    cbn [bind fst snd]. now exists (set_data d self), out.
  - intros. now apply init_item_unknown.
  - intros. now apply init_item_malformed.
  - intros. now apply (init_item_overflow float st item param value k r).
Qed.

Lemma init_completes_when_well_formed_witness :
  exists self out,
    init example_float
      "TARGET=5;MODEL=NP;LEAK_CURRENT=nan;PARTICLE_DIAMETER=1;FOO=1"
      two_samples = Ok (self, out)
    /\ data self = two_samples.
Proof.
  apply (proj1 (init_completes_when_well_formed example_float
                  "TARGET=5;MODEL=NP;LEAK_CURRENT=nan;PARTICLE_DIAMETER=1;FOO=1"
                  two_samples)).
  pose proof float_max_bounds as Hm.
  match goal with |- context [split ";" ?x] =>
    let v := eval vm_compute in (split ";" x) in
    change (split ";" x) with v end.
  repeat apply Forall_cons; [| | | | | apply Forall_nil].
  - exists "TARGET", "5".
    repeat split; try discriminate. intros _. eexists; reflexivity.
  - exists "MODEL", "NP". repeat split; discriminate.
  - exists "LEAK_CURRENT", "nan".
    repeat split; try discriminate. intros _. eexists; reflexivity.
  - exists "PARTICLE_DIAMETER", "1".
    repeat split; try discriminate.
    + intros _. eexists; reflexivity.
    + intros _ v [= <-]. cbn [radius_fits]. lra.
  - exists "FOO", "1". repeat split; discriminate.
Defined.

(** C9, counterexample.  The parameter string ["MODEL=NP;PLOT"] has an item
    without ['=']: whatever [float] does and whatever the measurement,
    construction does not complete (the unpacking raises [ValueError]). *)
Lemma init_raises_on_item_without_equals :
  ~ (exists (float : string -> parsed) (d : list (R * R)) st,
       init float "MODEL=NP;PLOT" d = Ok st).
Proof.
  intros (float & d & st & H). cbv in H. discriminate H.
Qed.

(** A well-formed diameter can still stop the constructor:
    ["PARTICLE_DIAMETER=1e200"] raises [OverflowError] at line 49. *)
Lemma init_overflows_on_huge_diameter (d : list (R * R)) :
  init example_float "PARTICLE_DIAMETER=1e200" d = Raise OverflowError.
Proof.
  pose proof float_max_bounds as Hm. unfold init.
  match goal with |- context [split ";" ?x] =>
    let v := eval vm_compute in (split ";" x) in
    change (split ";" x) with v end.
  cbn [init_items].
  rewrite (init_item_overflow example_float _ _ "PARTICLE_DIAMETER" "1e200"
             1e-9 1e200); try reflexivity.
  - now left.
  - lra.
Qed.

(** The objects of the worked examples are the ones the constructor builds
    from their parameter strings. *)
Ltac run_item :=
  unfold init_item at 1;
  match goal with |- context [split "=" ?x] =>
    let v := eval vm_compute in (split "=" x) in
    change (split "=" x) with v end;
  cbn [String.eqb Ascii.eqb Bool.eqb andb];
  unfold to_float.

Ltac run_items :=
  unfold init;
  match goal with |- context [split ";" ?x] =>
    let v := eval vm_compute in (split ";" x) in
    change (split ";" x) with v end;
  cbn [init_items].

Ltac run_area :=
  run_item;
  match goal with H : _ = Parsed (Fin 1) |- _ => rewrite H end;
  cbn [bind]; cbv zeta; rewrite example_square by lra; cbn [bind];
  rewrite example_pi_times by lra.

Ltac run_target H :=
  run_item; rewrite H; cbn [bind positive];
  match goal with |- context [Rgt_dec ?a 0] =>
    destruct (Rgt_dec a 0) as [_ | Hn]; [|exfalso; lra] end;
  cbn [bind].

Lemma example_self_constructed (float : string -> parsed) (d : list (R * R)) :
  float "100" = Parsed (Fin 100) -> float "0" = Parsed (Fin 0) ->
  float "1" = Parsed (Fin 1) ->
  init float
    "TARGET=100;MODEL=NP;LEAK_CURRENT=0;PARTICLE_DIAMETER=1;APERTURE_DIAMETER=1"
    d = Ok (as_float (example_self d []), [])
  /\ init float
    "TARGET=100;MODEL=NP;LEAK_CURRENT=0;PARTICLE_DIAMETER=1;APERTURE_DIAMETER=1;TIME=[0,1]"
    d = Ok (as_float (example_self d [0%R; 1%R]), []).
Proof.
  intros H100 H0 H1.
  split.
  - run_items.
    run_target H100.
    run_item. cbn [bind].
    run_item. rewrite H0. cbn [bind].
    run_area. run_area.
    reflexivity.
  - run_items.
    run_target H100.
    run_item. cbn [bind].
    run_item. rewrite H0. cbn [bind].
    run_area. run_area.
    run_item.
    match goal with |- context [strip ?c ?x] =>
      let v := eval vm_compute in (strip c x) in
      change (strip c x) with v end.
    cbn [String.eqb Ascii.eqb Bool.eqb andb].
    match goal with |- context [split "," ?x] =>
      let v := eval vm_compute in (split "," x) in
      change (split "," x) with v end.
    cbn [floats]. unfold to_float. rewrite H0, H1. cbn [bind].
    reflexivity.
Qed.

Lemma example_five_constructed (float : string -> parsed) (d : list (R * R)) :
  float "5" = Parsed (Fin 5) -> float "0" = Parsed (Fin 0) ->
  float "1" = Parsed (Fin 1) ->
  init float
    "TARGET=5;MODEL=NP;LEAK_CURRENT=0;PARTICLE_DIAMETER=1;APERTURE_DIAMETER=1"
    d = Ok (as_float (example_five d), []).
Proof.
  intros H5 H0 H1.
  run_items.
  run_target H5.
  run_item. cbn [bind].
  run_item. rewrite H0. cbn [bind].
  run_area. run_area.
  reflexivity.
Qed.

End InitFacts.

(** ** The current integrator: the integral of line 116 *)

Module IntegralFacts.
Import Current CurrentAux.
Open Scope R_scope.

Lemma integral_cons (leak : R) (a b : R * R) (r : list (R * R)) :
  integral_of leak (a :: b :: r)
  = Rabs (snd b + leak) * (fst b - fst a) / e + integral_of leak (b :: r).
Proof.
  unfold integral_of. rewrite CurrentFacts.integrand_cons.
  pose proof CurrentFacts.e_pos. field. lra.
Qed.

Lemma integral_short (leak : R) (a : R * R) :
  integral_of leak [] = 0 /\ integral_of leak [a] = 0.
Proof. unfold integral_of; simpl. split; lra. Qed.

Lemma term_nonneg (leak : R) (a b : R * R) :
  fst a <= fst b -> 0 <= Rabs (snd b + leak) * (fst b - fst a) / e.
Proof.
  intros H. pose proof CurrentFacts.e_pos. pose proof (Rabs_pos (snd b + leak)).
  apply Rmult_le_pos; [apply Rmult_le_pos; lra|].
  left. now apply Rinv_0_lt_compat.
Qed.

Lemma sorted_cons_inv (a b : R * R) (r : list (R * R)) :
  time_sorted (a :: b :: r) -> fst a <= fst b /\ time_sorted (b :: r).
Proof.
  unfold time_sorted; simpl. intros H. inversion H as [|? ? Hs Hf]; subst.
  inversion Hf; subst. split; assumption.
Qed.

Lemma sorted_tail (a : R * R) (d : list (R * R)) :
  time_sorted (a :: d) -> time_sorted d.
Proof. unfold time_sorted; simpl. intros H. now inversion H. Qed.

Lemma sorted_head_le (a : R * R) (d : list (R * R)) :
  time_sorted (a :: d) -> Forall (fun s => fst a <= fst s) d.
Proof.
  unfold time_sorted; simpl. intros H. inversion H as [|? ? _ Hf]; subst.
  rewrite Forall_map in Hf. exact Hf.
Qed.

Lemma integral_nonneg_sorted (leak : R) (d : list (R * R)) :
  time_sorted d -> 0 <= integral_of leak d.
Proof.
  induction d as [|a d IH]; intros Hs.
  - destruct (integral_short leak (0, 0)) as [-> _]. lra.
  - destruct d as [|b r].
    + destruct (integral_short leak a) as [_ ->]. lra.
    + destruct (sorted_cons_inv a b r Hs) as [Hab Hs'].
      rewrite integral_cons. pose proof (term_nonneg leak a b Hab).
      specialize (IH Hs'). lra.
Qed.

(** X1.  On a measurement whose times do not decrease the integrated
    particle count is never negative, whatever the currents and the leak
    current. *)
Theorem integral_nonnegative (leak : R) (d : list (R * R)) :
  time_sorted d -> 0 <= integral_of leak d.
Proof. apply integral_nonneg_sorted. Qed.

Lemma integral_nonnegative_witness : 0 <= integral_of 0 two_samples.
Proof.
  apply (integral_nonnegative 0 two_samples).
  unfold time_sorted, two_samples; simpl.
  repeat constructor; lra.
Defined.

(** X2.  The current of the first sample never enters the integral
    ([net_current[1:]] drops it): two measurements that differ in that one
    value only have the same integral. *)
Theorem first_current_ignored (leak t c c' : R) (d : list (R * R)) :
  integral_of leak ((t, c) :: d) = integral_of leak ((t, c') :: d).
Proof.
  destruct d as [|b r].
  - destruct (integral_short leak (t, c)) as [_ ->].
    destruct (integral_short leak (t, c')) as [_ ->]. reflexivity.
  - rewrite !integral_cons. reflexivity.
Qed.

Lemma integral_split_aux (leak : R) (s : R * R) (d2 : list (R * R)) :
  forall d1,
    integral_of leak (d1 ++ s :: d2)
    = integral_of leak (d1 ++ [s]) + integral_of leak (s :: d2).
Proof.
  induction d1 as [|a d1 IH].
  - simpl. destruct (integral_short leak s) as [_ ->]. lra.
  - destruct d1 as [|b d1'].
    + simpl. rewrite !integral_cons.
      destruct (integral_short leak s) as [_ ->]. lra.
    + change ((a :: b :: d1') ++ s :: d2) with (a :: b :: (d1' ++ s :: d2)).
      change ((a :: b :: d1') ++ [s]) with (a :: b :: (d1' ++ [s])).
      rewrite !integral_cons.
      change (b :: d1' ++ s :: d2) with ((b :: d1') ++ s :: d2).
      change (b :: d1' ++ [s]) with ((b :: d1') ++ [s]).
      rewrite IH. lra.
Qed.

(** X3.  The integral is additive over a cut at a sample: the integral of
    a measurement is the integral up to and including a sample plus the
    integral from that sample on. *)
Theorem integral_additive (leak : R) (d1 d2 : list (R * R)) (s : R * R) :
  integral_of leak (d1 ++ s :: d2)
  = integral_of leak (d1 ++ [s]) + integral_of leak (s :: d2).
Proof. apply integral_split_aux. Qed.

Lemma filter_all {A : Type} (f : A -> bool) (l : list A) :
  Forall (fun x => f x = true) l -> filter f l = l.
Proof.
  induction 1 as [|x l Hx _ IH]; simpl; [reflexivity|]. now rewrite Hx, IH.
Qed.

Lemma filter_none {A : Type} (f : A -> bool) (l : list A) :
  Forall (fun x => f x = false) l -> filter f l = [].
Proof.
  induction 1 as [|x l Hx _ IH]; simpl; [reflexivity|]. now rewrite Hx, IH.
Qed.

Lemma filter_sorted (f : R * R -> bool) (d : list (R * R)) :
  time_sorted d -> time_sorted (filter f d).
Proof.
  unfold time_sorted. induction d as [|a d IH]; simpl; intros H; [constructor|].
  inversion H as [|? ? Hs Hf]; subst.
  destruct (f a); simpl; [|now apply IH].
  constructor; [now apply IH|].
  rewrite Forall_map in *. rewrite Forall_forall in *.
  intros x Hx. apply filter_In in Hx. now apply Hf.
Qed.

(** Samples not before [t0]: on sorted times, a final segment. *)
Lemma integral_filter_ge (leak t0 : R) (d : list (R * R)) :
  time_sorted d ->
  integral_of leak
    (filter (fun s => if Rge_dec (fst s) t0 then true else false) d)
  <= integral_of leak d.
Proof.
  induction d as [|a d IH]; intros Hs; [simpl; lra|].
  cbn [filter]. destruct (Rge_dec (fst a) t0) as [Ha | Ha].
  - rewrite filter_all; [lra|].
    eapply Forall_impl; [|apply (sorted_head_le a d Hs)].
    intros s Hle. cbv beta. destruct (Rge_dec (fst s) t0); [reflexivity | lra].
  - specialize (IH (sorted_tail a d Hs)).
    destruct d as [|b r].
    + simpl in *. destruct (integral_short leak a) as [-> ->]. lra.
    + destruct (sorted_cons_inv a b r Hs) as [Hab _].
      rewrite (integral_cons leak a b r).
      pose proof (term_nonneg leak a b Hab). lra.
Qed.

(** Samples not after [t1]: on sorted times, an initial segment. *)
Lemma integral_filter_le (leak t1 : R) (d : list (R * R)) :
  time_sorted d ->
  integral_of leak
    (filter (fun s => if Rle_dec (fst s) t1 then true else false) d)
  <= integral_of leak d.
Proof.
  set (f := fun s : R * R => if Rle_dec (fst s) t1 then true else false).
  revert d.
  assert (Hfail : forall a d, time_sorted (a :: d) -> f a = false ->
                              filter f d = []).
  { intros a d Hs Ha. apply filter_none.
    eapply Forall_impl; [|apply (sorted_head_le a d Hs)].
    intros s Hle. unfold f in *.
    destruct (Rle_dec (fst a) t1); [discriminate|].
    destruct (Rle_dec (fst s) t1); [lra | reflexivity]. }
  assert (Hkeep : forall d a, time_sorted (a :: d) ->
            integral_of leak (a :: filter f d) <= integral_of leak (a :: d)).
  { induction d as [|b r IH]; intros a Hs; [simpl; lra|].
    destruct (sorted_cons_inv a b r Hs) as [Hab Hs'].
    cbn [filter]. destruct (f b) eqn:Eb.
    - rewrite !integral_cons. specialize (IH b Hs'). lra.
    - rewrite (Hfail b r Hs' Eb), integral_cons.
      destruct (integral_short leak a) as [_ ->].
      pose proof (term_nonneg leak a b Hab).
      pose proof (integral_nonneg_sorted leak (b :: r) Hs'). lra. }
  intros d Hs. destruct d as [|a d]; [simpl; lra|].
  cbn [filter]. destruct (f a) eqn:Ea.
  - now apply Hkeep.
  - rewrite (Hfail a d Hs Ea).
    destruct (integral_short leak a) as [-> _].
    now apply integral_nonneg_sorted.
Qed.

Lemma restrict_window_data (self : IntegrateCurrent) (t0 t1 : R)
    (rest : list R) :
  time self = t0 :: t1 :: rest ->
  restrict_window self
  = (set_data
       (filter (fun s => if Rle_dec (fst s) t1 then true else false)
          (filter (fun s => if Rge_dec (fst s) t0 then true else false)
                  (data self))) self, Ok tt).
Proof.
  intros Ht. unfold restrict_window. rewrite Ht.
  destruct self; reflexivity.
Qed.

(** X4.  On a measurement whose times do not decrease, restricting to a
    time window never increases the integral: the integral of the data
    [integrate] keeps under a window [[t0, t1]] is at most the integral of
    the loaded data, and the kept data is still sorted. *)
Theorem window_never_increases_integral (self : IntegrateCurrent)
    (leak t0 t1 : R) (rest : list R) :
  time self = t0 :: t1 :: rest ->
  time_sorted (data self) ->
  integral_of leak (data (fst (restrict_window self)))
  <= integral_of leak (data self)
  /\ time_sorted (data (fst (restrict_window self))).
Proof.
  intros Ht Hs. rewrite (restrict_window_data self t0 t1 rest Ht).
  cbn [fst data set_data]. split.
  - eapply Rle_trans; [apply integral_filter_le | apply integral_filter_ge].
    + now apply filter_sorted.
    + exact Hs.
  - now do 2 apply filter_sorted.
Qed.

Lemma window_never_increases_integral_witness :
  integral_of 0 (data (fst (restrict_window
                              (example_self three_samples [0; 1]))))
  <= integral_of 0 (data (example_self three_samples [0; 1])).
Proof.
  refine (proj1 (window_never_increases_integral
                   (example_self three_samples [0; 1]) 0 0 1 [] eq_refl _)).
  unfold time_sorted, three_samples; simpl. repeat constructor; lra.
Defined.

End IntegralFacts.

(** ** The current integrator: deposition rate and target selection *)

Module RateFacts.
Import Current CurrentAux.
Open Scope R_scope.

Lemma last_n_nil {A : Type} (n : nat) (l : list A) :
  (0 < n)%nat -> last_n n l = [] -> l = [].
Proof.
  unfold last_n. intros Hn H. destruct l as [|a l]; [reflexivity|].
  apply (f_equal (@length A)) in H. rewrite length_skipn in H.
  cbn [length] in H. lia.
Qed.

Lemma last_n_app {A : Type} (n : nat) (l1 l2 : list A) :
  (n <= length l2)%nat -> last_n n (l1 ++ l2) = last_n n l2.
Proof.
  unfold last_n. intros Hn. rewrite length_app, skipn_app.
  rewrite skipn_all2 by lia. simpl. f_equal. lia.
Qed.

Lemma np_sum_above (lo : R) (l : list R) :
  Forall (fun c => lo < c) l -> l <> [] -> INR (length l) * lo < np_sum l.
Proof.
  intros H. induction H as [|x l Hx Hl IH]; intros Hne; [congruence|].
  change (np_sum (x :: l)) with (x + np_sum l).
  change (length (x :: l)) with (S (length l)). rewrite S_INR.
  destruct l as [|y l'].
  - simpl. lra.
  - assert (INR (length (y :: l')) * lo < np_sum (y :: l'))
      by (apply IH; discriminate). lra.
Qed.

Lemma dep_rate_unfold (leak : R) (d : list (R * R)) :
  dep_rate_of leak d
  = let sel := last_n 100 (filter qualifies (net_current leak d)) in
    match sel with
    | [] => None
    | _ :: _ => Some (np_sum sel / INR (length sel) / e)
    end.
Proof. reflexivity. Qed.

(** X5.  The deposition rate is undefined (the NaN of an empty average)
    exactly when no sample has [|current + leak|] above the noise floor
    1e-13; when it is defined it exceeds [1e-13 / e]. *)
Theorem dep_rate_defined_above_floor (leak : R) (d : list (R * R)) :
  (dep_rate_of leak d = None
   <-> Forall (fun s => Rabs (snd s + leak) <= 1e-13) d)
  /\ (forall rate, dep_rate_of leak d = Some rate -> 1e-13 / e < rate).
Proof.
  rewrite dep_rate_unfold. cbv zeta. split.
  - split.
    + intros H.
      assert (Hf : filter qualifies (net_current leak d) = []).
      { apply (last_n_nil 100); [lia|].
        destruct (last_n 100 _); [reflexivity | discriminate]. }
      apply Forall_forall. intros s Hs.
      destruct (Rle_dec (Rabs (snd s + leak)) 1e-13) as [Hle | Hgt];
        [exact Hle|].
      assert (Hin : In (Rabs (snd s + leak))
                       (filter qualifies (net_current leak d))).
      { apply filter_In. split.
        - unfold net_current. apply in_map_iff. now exists s.
        - unfold qualifies. destruct (Rgt_dec _ _); [reflexivity | lra]. }
      rewrite Hf in Hin. destruct Hin.
    + intros H.
      assert (Hf : filter qualifies (net_current leak d) = []).
      { apply IntegralFacts.filter_none. unfold net_current.
        rewrite Forall_map. eapply Forall_impl; [|exact H].
        intros s Hs. unfold qualifies.
        destruct (Rgt_dec _ _); [lra | reflexivity]. }
      rewrite Hf. reflexivity.
  - intros rate.
    set (sel := last_n 100 (filter qualifies (net_current leak d))).
    assert (Hsel : Forall (fun c => 1e-13 < c) sel).
    { apply Forall_forall. intros c Hc.
      apply PredictorFacts.In_last_n, filter_In in Hc. destruct Hc as [_ Hc].
      unfold qualifies in Hc. destruct (Rgt_dec c 1e-13); [lra | discriminate]. }
    destruct sel as [|c sel'] eqn:E; [discriminate|].
    assert (Hsum : INR (length (c :: sel')) * 1e-13 < np_sum (c :: sel'))
      by (apply np_sum_above; [exact Hsel | discriminate]).
    assert (Hlen : 0 < INR (length (c :: sel')))
      by (apply lt_0_INR; simpl; lia).
    pose proof CurrentFacts.e_pos as He.
    assert (Hgoal : 1e-13 / e
                    < np_sum (c :: sel') / INR (length (c :: sel')) / e).
    { apply Rmult_lt_compat_r; [now apply Rinv_0_lt_compat|].
      apply (Rmult_lt_reg_r (INR (length (c :: sel')))); [exact Hlen|].
      replace (np_sum (c :: sel') / INR (length (c :: sel'))
               * INR (length (c :: sel')))
        with (np_sum (c :: sel')) by (field; lra).
      lra. }
    intros [= <-]. exact Hgoal.
Qed.

(** X6.  The deposition rate looks at the last 100 qualifying samples only:
    samples put in front of a measurement that has at least 100 samples
    above the noise floor do not change it. *)
Theorem dep_rate_trailing (leak : R) (d1 d2 : list (R * R)) :
  (100 <= length (filter qualifies (net_current leak d2)))%nat ->
  dep_rate_of leak (d1 ++ d2) = dep_rate_of leak d2.
Proof.
  intros H. rewrite !dep_rate_unfold. cbv zeta. unfold net_current in *.
  rewrite map_app, filter_app, last_n_app by exact H. reflexivity.
Qed.

Lemma dep_rate_trailing_witness :
  dep_rate_of 0 (two_samples ++ uniform_grid 0 1 1.602e-7 100)
  = dep_rate_of 0 (uniform_grid 0 1 1.602e-7 100).
Proof.
  apply (dep_rate_trailing 0 two_samples (uniform_grid 0 1 1.602e-7 100)).
  rewrite IntegralFacts.filter_all.
  - unfold net_current, uniform_grid. rewrite !length_map, length_seq. lia.
  - unfold net_current, uniform_grid. rewrite map_map, Forall_map.
    apply Forall_forall. intros k _. cbn [snd]. unfold qualifies.
    rewrite Rabs_pos_eq by lra.
    destruct (Rgt_dec (1.602e-7 + 0) 1e-13); [reflexivity | lra].
Defined.

End RateFacts.

(** ** The current integrator: which target the predictor aims at *)

Module TargetFacts.
Import Current CurrentAux.
Open Scope R_scope.

Lemma target_loop_found (all l1 l2 : list R) (c present : R) :
  forall tc, Forall (fun x => x < present) l1 -> c >= present ->
  target_loop all (l1 ++ c :: l2) present tc = Some c.
Proof.
  induction l1 as [|x l1 IH]; intros tc Hl Hc; simpl.
  - destruct (Rge_dec c present); [reflexivity | contradiction].
  - inversion Hl; subst.
    destruct (Rge_dec x present); [lra | now apply IH].
Qed.

Lemma target_loop_none (all rest : list R) (present : R) :
  forall tc, Forall (fun x => x < present) rest ->
  target_loop all rest present tc
  = match rest with [] => tc | _ :: _ => Some (last all 0) end.
Proof.
  induction rest as [|x rest IH]; intros tc H; simpl; [reflexivity|].
  inversion H; subst. destruct (Rge_dec x present); [lra|].
  rewrite IH by assumption. now destruct rest.
Qed.

Lemma first_at_or_above (present : R) (l : list R) :
  Forall (fun x => x < present) l
  \/ exists l1 c l2,
       l = l1 ++ c :: l2 /\ Forall (fun x => x < present) l1 /\ c >= present.
Proof.
  induction l as [|x l IH]; [left; constructor|].
  destruct (Rge_dec x present) as [Hx | Hx].
  - right. exists [], x, l. repeat split; [constructor | exact Hx].
  - destruct IH as [IH | (l1 & c & l2 & -> & Hl1 & Hc)].
    + left. constructor; [lra | exact IH].
    + right. exists (x :: l1), c, l2. repeat split; [|exact Hc].
      constructor; [lra | exact Hl1].
Qed.

(** X7.  The loop over the targets selects the first target at or above
    the present coverage, whatever comes after it in the list, and the last
    target of the list when every target is below the present coverage. *)
Theorem target_selection (targets : list R) (present : R) :
  targets <> [] ->
  (forall l1 c l2,
     targets = l1 ++ c :: l2 -> Forall (fun x => x < present) l1 ->
     c >= present ->
     target_loop targets targets present None = Some c)
  /\ (Forall (fun x => x < present) targets ->
      target_loop targets targets present None = Some (last targets 0)).
Proof.
  intros Hne. split.
  - intros l1 c l2 Heq Hl Hc. rewrite Heq at 2. now apply target_loop_found.
  - intros H. rewrite target_loop_none by exact H.
    destruct targets; [congruence | reflexivity].
Qed.

Lemma target_selection_witness :
  target_loop default_targets default_targets 12 None = Some 15.
Proof.
  refine (proj1 (target_selection default_targets 12 _)
            [5; 10] 15 [20; 25; 30; 40; 50; 75; 100; 150; 200; 300]
            eq_refl _ _).
  - discriminate.
  - repeat constructor; lra.
  - lra.
Defined.

(** X8.  On a nanoparticle configuration with positive areas and a
    non-empty target list, the predictor reports "already exceeded" exactly
    when every target is below the present coverage (with the default list:
    above 300 %); otherwise it prints no such line. *)
Theorem exceeded_iff_all_targets_below (self : IntegrateCurrent)
    (integral : R) (dep_rate : option R) (ap aa : R) (targets : list R) :
  model self = Some NP ->
  area_particle self = Some ap -> area_aperture self = Some aa ->
  0 < ap -> 0 < aa ->
  target self = Some targets -> targets <> [] ->
  let present := integral * 100 / aa * ap in
  (Forall (fun c => c < present) targets ->
     predictor self integral dep_rate
     = ([MsgExceeded (last targets 0) present;
         MsgClusters (to_pmol integral)], Ok tt))
  /\ (~ Forall (fun c => c < present) targets ->
      forall a b, ~ In (MsgExceeded a b)
                       (fst (predictor self integral dep_rate))).
Proof.
  intros Hm Hap Haa Hap0 Haa0 Ht Hne present.
  assert (Hcmp : forall tc, tc / 100 * aa / ap < integral <-> tc < present).
  { intros tc. unfold present. split; intros H.
    - apply (Rmult_lt_reg_r (/ ap * (aa / 100)));
        [apply Rmult_lt_0_compat;
           [now apply Rinv_0_lt_compat | lra]|].
      replace (tc * (/ ap * (aa / 100))) with (tc / 100 * aa / ap)
        by (field; lra).
      replace (integral * 100 / aa * ap * (/ ap * (aa / 100))) with integral
        by (field; lra).
      exact H.
    - apply (Rmult_lt_compat_r (/ ap * (aa / 100))) in H;
        [|apply Rmult_lt_0_compat; [now apply Rinv_0_lt_compat | lra]].
      replace (tc * (/ ap * (aa / 100))) with (tc / 100 * aa / ap) in H
        by (field; lra).
      replace (integral * 100 / aa * ap * (/ ap * (aa / 100))) with integral
        in H by (field; lra).
      exact H. }
  split.
  - intros Hall.
    assert (Hloop : target_loop targets targets present None
                    = Some (last targets 0)).
    { rewrite target_loop_none by exact Hall.
      destruct targets; [congruence | reflexivity]. }
    rewrite (PredictorFacts.predictor_NP self integral dep_rate ap aa targets
               (last targets 0)); try assumption; try lra.
    destruct (Rlt_dec _ _) as [_ | Hn]; [reflexivity|].
    exfalso. apply Hn, Hcmp.
    rewrite Forall_forall in Hall. apply Hall.
    destruct targets as [|t0 ts]; [congruence|].
    apply (@exists_last R) in Hne. destruct Hne as (l' & x & ->).
    rewrite last_last. apply in_or_app. right. now left.
  - intros Hnot a b.
    destruct (first_at_or_above present targets)
      as [Hall | (l1 & c & l2 & Heq & Hl1 & Hc)]; [contradiction|].
    assert (Hloop : target_loop targets targets present None = Some c)
      by (rewrite Heq at 2; now apply target_loop_found).
    rewrite (PredictorFacts.predictor_NP self integral dep_rate ap aa targets c);
      try assumption; try lra.
    destruct (Rlt_dec _ _) as [Hlt | _].
    + apply Hcmp in Hlt. lra.
    + destruct dep_rate; cbn [fst In]; intros H;
        [destruct H as [H | []]; discriminate H | destruct H].
Qed.

Lemma exceeded_iff_all_targets_below_witness :
  predictor (example_self two_samples []) 2e12 (Some 1e12)
  = ([MsgExceeded (last [100] 0)
        (2e12 * 100 / (PI * (1 / 2 * 1e-3) ^ 2) * (PI * (1 / 2 * 1e-9) ^ 2));
      MsgClusters (to_pmol 2e12)], Ok tt).
Proof.
  pose proof PI_RGT_0 as Hpi.
  refine (proj1 (exceeded_iff_all_targets_below
                   (example_self two_samples []) 2e12 (Some 1e12)
                   (PI * (1 / 2 * 1e-9) ^ 2) (PI * (1 / 2 * 1e-3) ^ 2) [100]
                   eq_refl eq_refl eq_refl _ _ eq_refl _) _).
  - nra.
  - nra.
  - discriminate.
  - constructor; [|constructor].
    replace (2e12 * 100 / (PI * (1 / 2 * 1e-3) ^ 2)
             * (PI * (1 / 2 * 1e-9) ^ 2)) with 200 by (field; lra).
    lra.
Defined.

End TargetFacts.

(** ** The current integrator: the remaining time as hours, minutes, seconds *)

Module ClockFacts.
Import Current CurrentAux.
Open Scope R_scope.

Lemma trunc_floor (r : R) :
  0 <= r -> IZR (trunc r) <= r < IZR (trunc r) + 1 /\ (0 <= trunc r)%Z.
Proof.
  intros Hr. destruct (PredictorFacts.trunc_nonneg r Hr) as [H0 Hle].
  unfold trunc in *. destruct (Rle_dec 0 r) as [_ | H]; [|lra].
  pose proof (base_Int_part r) as [_ Hgt]. repeat split; [lra | lra | exact H0].
Qed.

Lemma clock_split (t : R) :
  0 <= t ->
  let hr := trunc (t / 3600) in
  let mn := trunc ((t - IZR hr * 3600) / 60) in
  let sec := trunc (t - IZR hr * 3600 - IZR mn * 60) in
  (0 <= hr)%Z /\ (0 <= mn < 60)%Z /\ (0 <= sec < 60)%Z
  /\ IZR (hr * 3600 + mn * 60 + sec) <= t
     < IZR (hr * 3600 + mn * 60 + sec) + 1.
Proof.
  intros Ht hr mn sec.
  destruct (trunc_floor (t / 3600)) as [[Hh1 Hh2] Hh0]; [lra|].
  fold hr in Hh1, Hh2, Hh0.
  assert (Hu : 0 <= t - IZR hr * 3600 < 3600) by lra.
  destruct (trunc_floor ((t - IZR hr * 3600) / 60)) as [[Hm1 Hm2] Hm0]; [lra|].
  fold mn in Hm1, Hm2, Hm0.
  assert (Hv : 0 <= t - IZR hr * 3600 - IZR mn * 60 < 60) by lra.
  destruct (trunc_floor (t - IZR hr * 3600 - IZR mn * 60))
    as [[Hs1 Hs2] Hs0]; [lra|].
  fold sec in Hs1, Hs2, Hs0.
  assert (Hmn : (mn < 60)%Z) by (apply lt_IZR; lra).
  assert (Hsec : (sec < 60)%Z) by (apply lt_IZR; lra).
  rewrite !plus_IZR, !mult_IZR.
  repeat split; try assumption; lra.
Qed.

(** X9.  When the predictor prints a remaining time (goal not below the
    count, positive deposition rate), the three printed numbers are the
    clock reading of the remaining seconds, truncated: hours are
    non-negative, minutes and seconds lie in 0..59, and
    [hr*3600 + min*60 + sec] is the whole number of seconds in
    [(target_number - integral) / dep_rate]. *)
Theorem remaining_time_is_a_clock_reading (self : IntegrateCurrent)
    (integral rate : R) (ap aa : R) (targets : list R) (tc : R) :
  model self = Some NP ->
  area_particle self = Some ap -> area_aperture self = Some aa ->
  ap <> 0 -> aa <> 0 ->
  target self = Some targets ->
  target_loop targets targets (integral * 100 / aa * ap) None = Some tc ->
  integral <= tc / 100 * aa / ap -> 0 < rate ->
  exists hr mn sec,
    predictor self integral (Some rate)
    = ([MsgTime (to_pmol integral) (integral * 100 / aa * ap) tc hr mn sec],
       Ok tt)
    /\ (0 <= hr)%Z /\ (0 <= mn < 60)%Z /\ (0 <= sec < 60)%Z
    /\ IZR (hr * 3600 + mn * 60 + sec)
       <= (tc / 100 * aa / ap - integral) / rate
       < IZR (hr * 3600 + mn * 60 + sec) + 1.
Proof.
  intros Hm Hap Haa Hap0 Haa0 Ht Hloop Hle Hrate.
  rewrite (PredictorFacts.predictor_NP self integral (Some rate) ap aa
             targets tc) by assumption.
  destruct (Rlt_dec _ _) as [Hlt | _]; [lra|].
  set (t := (tc / 100 * aa / ap - integral) / rate).
  assert (H0 : 0 <= t).
  { unfold t. apply Rmult_le_pos; [lra|].
    left. now apply Rinv_0_lt_compat. }
  pose proof (clock_split t H0) as Hclock. cbv zeta in Hclock |- *.
  eexists _, _, _. split; [reflexivity | exact Hclock].
Qed.

Lemma remaining_time_is_a_clock_reading_witness :
  exists hr mn sec,
    predictor (example_five slow_samples) 1e8 (Some 1e7)
    = ([MsgTime (to_pmol 1e8)
          (1e8 * 100 / (PI * (1 / 2 * 1e-3) ^ 2) * (PI * (1 / 2 * 1e-9) ^ 2))
          5 hr mn sec], Ok tt)
    /\ (0 <= hr)%Z /\ (0 <= mn < 60)%Z /\ (0 <= sec < 60)%Z
    /\ IZR (hr * 3600 + mn * 60 + sec)
       <= (5 / 100 * (PI * (1 / 2 * 1e-3) ^ 2) / (PI * (1 / 2 * 1e-9) ^ 2)
           - 1e8) / 1e7
       < IZR (hr * 3600 + mn * 60 + sec) + 1.
Proof.
  refine (remaining_time_is_a_clock_reading
            (example_five slow_samples) 1e8 1e7
            (PI * (1 / 2 * 1e-9) ^ 2) (PI * (1 / 2 * 1e-3) ^ 2) [5] 5
            eq_refl eq_refl eq_refl _ _ eq_refl _ _ _).
  - apply PredictorFacts.example_areas_nonzero.
  - apply PredictorFacts.example_areas_nonzero.
  - apply PredictorFacts.five_target_loop.
  - rewrite PredictorFacts.five_goal. lra.
  - lra.
Defined.

End ClockFacts.

(** ** The current integrator: [parse_bool_string] *)

Module BoolStringFacts.
Import Current CurrentAux.
Open Scope string_scope.

Ltac all_ascii c :=
  destruct c as [[] [] [] [] [] [] [] []]; vm_compute;
  split; intros H; try discriminate H; try reflexivity;
  try (left; reflexivity); try (right; reflexivity);
  try (destruct H as [H | H]; discriminate H).

Lemma upper_is_T (c : ascii) :
  upper_ascii c = "T"%char <-> c = "t"%char \/ c = "T"%char.
Proof. all_ascii c. Qed.

Lemma upper_is_Y (c : ascii) :
  upper_ascii c = "Y"%char <-> c = "y"%char \/ c = "Y"%char.
Proof. all_ascii c. Qed.

Lemma upper_is_O (c : ascii) :
  upper_ascii c = "O"%char <-> c = "o"%char \/ c = "O"%char.
Proof. all_ascii c. Qed.

Lemma upper_is_N (c : ascii) :
  upper_ascii c = "N"%char <-> c = "n"%char \/ c = "N"%char.
Proof. all_ascii c. Qed.

Lemma upper_is_ON (s : string) :
  upper s = "ON" <-> s = "on" \/ s = "On" \/ s = "oN" \/ s = "ON".
Proof.
  split.
  - destruct s as [|c1 [|c2 [|c3 s]]]; simpl; intros H; try discriminate H.
    injection H as H1 H2.
    apply upper_is_O in H1. apply upper_is_N in H2.
    destruct H1 as [-> | ->], H2 as [-> | ->]; auto.
  - intros [-> | [-> | [-> | ->]]]; reflexivity.
Qed.

(** X10.  [parse_bool_string] raises [IndexError] on the empty string; on
    any other string it answers true exactly when the string starts with
    one of t, T, y, Y or is "on" in any mix of cases, and false otherwise
    (so "1" and "enable" are false, "tbd" and "yellow" are true). *)
Theorem parse_bool_string_meaning (c : ascii) (s : string) :
  parse_bool_string "" = Raise IndexError
  /\ (exists b, parse_bool_string (String c s) = Ok b)
  /\ (parse_bool_string (String c s) = Ok true
      <-> c = "t"%char \/ c = "T"%char \/ c = "y"%char \/ c = "Y"%char
          \/ String c s = "on" \/ String c s = "On"
          \/ String c s = "oN" \/ String c s = "ON").
Proof.
  split; [reflexivity|]. split; [eexists; reflexivity|].
  assert (E : parse_bool_string (String c s)
              = Ok (Ascii.eqb (upper_ascii c) "T"
                    || String.eqb (upper (String c s)) "ON"
                    || Ascii.eqb (upper_ascii c) "Y")) by reflexivity.
  rewrite E. clear E.
  pose proof (upper_is_ON (String c s)) as HON.
  remember (upper (String c s)) as u eqn:Hu. clear Hu.
  split.
  - intros [= H]. apply orb_true_iff in H. destruct H as [H | H].
    + apply orb_true_iff in H. destruct H as [H | H].
      * apply Ascii.eqb_eq, upper_is_T in H. tauto.
      * apply String.eqb_eq, HON in H. tauto.
    + apply Ascii.eqb_eq, upper_is_Y in H. tauto.
  - intros H. f_equal. apply orb_true_iff.
    destruct H as [H | [H | [H | [H | H]]]].
    + left. apply orb_true_iff. left. apply Ascii.eqb_eq, upper_is_T. auto.
    + left. apply orb_true_iff. left. apply Ascii.eqb_eq, upper_is_T. auto.
    + right. apply Ascii.eqb_eq, upper_is_Y. auto.
    + right. apply Ascii.eqb_eq, upper_is_Y. auto.
    + left. apply orb_true_iff. right. apply String.eqb_eq, HON.
      tauto.
Qed.

End BoolStringFacts.

(** ** The current integrator: what the constructor establishes *)

Module ConstructorFacts.
Import Current CurrentAux.
Open Scope R_scope.

Lemma fresh_constructed : constructed fresh.
Proof. constructor; simpl; intros; discriminate. Qed.

Lemma area_not_negative (k : R) (v sq : pyfloat) :
  square (half_times k v) = Ok sq -> not_negative (pi_times sq).
Proof.
  pose proof PI_RGT_0 as Hpi.
  destruct v as [r| | |]; cbn [half_times square].
  - destruct (Rgt_dec _ _) as [_ | Hle]; [discriminate|].
    intros [= <-]. cbn [pi_times].
    destruct (Rgt_dec _ _) as [_ | Hle']; cbn [not_negative]; [exact I|].
    split; [|lra].
    apply Rmult_le_pos; [lra | apply pow2_ge_0].
  - intros [= <-]. exact I.
  - intros [= <-]. exact I.
  - intros [= <-]. exact I.
Qed.

Section WithFloat.
Variable float : string -> parsed.

Ltac read_float v :=
  unfold to_float; destruct (float v); cbn [bind]; try discriminate.

Lemma init_item_constructed st st' item :
  init_item float st item = Ok st' ->
  constructed (fst st) -> Forall printed_by_init (snd st) ->
  constructed (fst st') /\ Forall printed_by_init (snd st').
Proof.
  destruct st as [self out]. unfold init_item.
  destruct (split "=" item) as [|param [|value [|? ?]]]; try discriminate.
  cbn [fst snd]. intros H [Ht Hp Ha] Hout.
  destruct (String.eqb param "LEAK_CURRENT").
  { revert H. read_float value. intros [= <-]. split; [|exact Hout].
    constructor; assumption. }
  destruct (String.eqb param "PARTICLE_DIAMETER").
  { revert H. read_float value. cbv zeta.
    destruct (square (half_times 1e-9 x)) as [sq| |] eqn:E; cbn [bind];
      try discriminate.
    intros [= <-]. split; [|exact Hout].
    constructor; cbn; try assumption.
    intros a [= <-]. exact (area_not_negative _ _ _ E). }
  destruct (String.eqb param "APERTURE_DIAMETER").
  { revert H. read_float value. cbv zeta.
    destruct (square (half_times 1e-3 x)) as [sq| |] eqn:E; cbn [bind];
      try discriminate.
    intros [= <-]. split; [|exact Hout].
    constructor; cbn; try assumption.
    intros a [= <-]. exact (area_not_negative _ _ _ E). }
  destruct (String.eqb param "DEBUG").
  { revert H. destruct (parse_bool_string value); cbn [bind];
      try discriminate.
    intros [= <-]. split; [|exact Hout]. constructor; assumption. }
  destruct (String.eqb param "MODEL").
  { revert H. destruct (String.eqb value "NP");
      [|destruct (String.eqb value "SA")]; intros [= <-].
    - split; [constructor; assumption | exact Hout].
    - split; [constructor; assumption | exact Hout].
    - split; [constructor; assumption|].
      apply Forall_app. split; [exact Hout|].
      constructor; [now left | constructor]. }
  destruct (String.eqb param "SA_DENSITY").
  { revert H. read_float value. intros [= <-]. split; [|exact Hout].
    constructor; assumption. }
  destruct (String.eqb param "TARGET").
  { revert H. read_float value.
    destruct (positive x) eqn:Epos; intros [= <-]; (split; [|exact Hout]);
      constructor; cbn; try assumption.
    - intros ts [= <-]. right. now exists x.
    - intros ts [= <-]. now left. }
  destruct (String.eqb param "TIME").
  { revert H. cbv zeta.
    destruct (String.eqb (strip ["["%char; "]"%char] value) "").
    - intros [= <-]. split; [constructor; assumption | exact Hout].
    - destruct (floats float _); cbn [bind]; try discriminate.
      intros [= <-]. split; [constructor; assumption | exact Hout]. }
  injection H as <-. split; [constructor; assumption|].
  apply Forall_app. split; [exact Hout|].
  constructor; [right; eauto | constructor].
Qed.

Lemma init_items_constructed items : forall st st',
  init_items float st items = Ok st' ->
  constructed (fst st) -> Forall printed_by_init (snd st) ->
  constructed (fst st') /\ Forall printed_by_init (snd st').
Proof.
  induction items as [|item items IH]; intros st st' H Hc Ho; simpl in H.
  - injection H as <-. now split.
  - destruct (init_item float st item) as [st1| |] eqn:E; try discriminate.
    cbn [bind] in H.
    destruct (init_item_constructed st st1 item E Hc Ho) as [Hc1 Ho1].
    now apply (IH st1 st').
Qed.

End WithFloat.

(** X11.  Every object the constructor returns stores the measurement it
    was given; its target list, when set, is the default list 5 .. 300 or
    a single float that is [> 0] (which [inf] is, and a NaN is not); each
    of its two areas, when set, is a number between 0 and the largest
    double, [inf] or a NaN, never a negative number; and the only lines it
    printed are the 'MODEL must have ...' and 'not recognized' notices. *)
Theorem constructor_establishes (float : string -> parsed)
    (parameter_string : string) (d : list (R * R))
    (self : object pyfloat) (out : list message) :
  init float parameter_string d = Ok (self, out) ->
  data self = d /\ constructed self /\ Forall printed_by_init out.
Proof.
  unfold init. intros H.
  destruct (init_items float (fresh, []) _) as [[self0 out0]| |] eqn:E;
    try discriminate.
  cbn [bind fst snd] in H. injection H as <- <-.
  destruct (init_items_constructed float _ _ _ E fresh_constructed
              (Forall_nil _)) as [[Ht Hp Ha] Ho].
  split; [reflexivity|]. split; [|exact Ho].
  constructor; assumption.
Qed.

Lemma constructor_establishes_witness :
  data (as_float (example_five slow_samples)) = slow_samples
  /\ constructed (as_float (example_five slow_samples))
  /\ Forall printed_by_init [].
Proof.
  apply (constructor_establishes example_float
           "TARGET=5;MODEL=NP;LEAK_CURRENT=0;PARTICLE_DIAMETER=1;APERTURE_DIAMETER=1"
           slow_samples).
  now apply InitFacts.example_five_constructed.
Defined.

(** A NaN diameter is stored as a NaN area, an infinite target as the
    target, and a NaN target gives the default list. *)
Lemma constructor_stores_special_values (d : list (R * R)) :
  init example_float "PARTICLE_DIAMETER=nan;TARGET=inf" d
  = Ok (set_data d (set_target (Some [PosInf])
                      (set_area_particle (Some NaN) fresh)), [])
  /\ init example_float "TARGET=nan" d
     = Ok (set_data d (set_target (Some (map Fin default_targets)) fresh), []).
Proof. split; reflexivity. Qed.

Section Keys.
Variable float : string -> parsed.

Lemma has_key_cons k item items :
  has_key k (item :: items) = false ->
  item_key item <> Some k /\ has_key k items = false.
Proof.
  unfold has_key, item_key; cbn [existsb]. intros H.
  apply orb_false_iff in H. destruct H as [H1 H2]. split; [|exact H2].
  destruct (split "=" item) as [|p [|v [|? ?]]]; try discriminate.
  intros [= ->]. rewrite String.eqb_refl in H1. discriminate.
Qed.

(** One item leaves alone the attributes of the other keys. *)
Lemma init_item_other_keys st st' item :
  init_item float st item = Ok st' ->
  (item_key item <> Some "LEAK_CURRENT"%string ->
   leak_current (fst st') = leak_current (fst st))
  /\ (item_key item <> Some "MODEL"%string -> model (fst st') = model (fst st))
  /\ (item_key item <> Some "TARGET"%string ->
      target (fst st') = target (fst st))
  /\ (item_key item <> Some "TIME"%string -> time (fst st') = time (fst st))
  /\ (item_key item <> Some "PARTICLE_DIAMETER"%string ->
      area_particle (fst st') = area_particle (fst st))
  /\ (item_key item <> Some "APERTURE_DIAMETER"%string ->
      area_aperture (fst st') = area_aperture (fst st)).
Proof.
  destruct st as [self out]. unfold init_item, item_key.
  destruct (split "=" item) as [|param [|value [|? ?]]]; try discriminate.
  cbn [fst snd]. intros H.
  destruct (String.eqb_spec param "LEAK_CURRENT") as [-> | _].
  { revert H. unfold to_float. destruct (float value); cbn [bind];
      try discriminate.
    intros [= <-]. repeat split; intros Hk; try reflexivity. congruence. }
  destruct (String.eqb_spec param "PARTICLE_DIAMETER") as [-> | _].
  { revert H. unfold to_float. destruct (float value); cbn [bind];
      try discriminate.
    cbv zeta. destruct (square _); cbn [bind]; try discriminate.
    intros [= <-]. repeat split; intros Hk; try reflexivity. congruence. }
  destruct (String.eqb_spec param "APERTURE_DIAMETER") as [-> | _].
  { revert H. unfold to_float. destruct (float value); cbn [bind];
      try discriminate.
    cbv zeta. destruct (square _); cbn [bind]; try discriminate.
    intros [= <-]. repeat split; intros Hk; try reflexivity. congruence. }
  destruct (String.eqb_spec param "DEBUG") as [-> | _].
  { revert H. destruct (parse_bool_string value); cbn [bind];
      try discriminate.
    intros [= <-]. repeat split; intros Hk; reflexivity. }
  destruct (String.eqb_spec param "MODEL") as [-> | _].
  { revert H. destruct (String.eqb value "NP");
      [|destruct (String.eqb value "SA")]; intros [= <-];
      repeat split; intros Hk; try reflexivity; congruence. }
  destruct (String.eqb_spec param "SA_DENSITY") as [-> | _].
  { revert H. unfold to_float. destruct (float value); cbn [bind];
      try discriminate.
    intros [= <-]. repeat split; intros Hk; reflexivity. }
  destruct (String.eqb_spec param "TARGET") as [-> | _].
  { revert H. unfold to_float. destruct (float value); cbn [bind];
      try discriminate.
    destruct (positive x); intros [= <-];
      repeat split; intros Hk; try reflexivity; congruence. }
  destruct (String.eqb_spec param "TIME") as [-> | _].
  { revert H. cbv zeta.
    destruct (String.eqb (strip ["["%char; "]"%char] value) "").
    - intros [= <-]. repeat split; intros Hk; reflexivity.
    - destruct (floats float _); cbn [bind]; try discriminate.
      intros [= <-]. repeat split; intros Hk; try reflexivity. congruence. }
  injection H as <-. repeat split; intros Hk; reflexivity.
Qed.

Lemma init_items_other_keys items : forall st st',
  init_items float st items = Ok st' ->
  (has_key "LEAK_CURRENT" items = false ->
   leak_current (fst st') = leak_current (fst st))
  /\ (has_key "MODEL" items = false -> model (fst st') = model (fst st))
  /\ (has_key "TARGET" items = false -> target (fst st') = target (fst st))
  /\ (has_key "TIME" items = false -> time (fst st') = time (fst st))
  /\ (has_key "PARTICLE_DIAMETER" items = false ->
      area_particle (fst st') = area_particle (fst st))
  /\ (has_key "APERTURE_DIAMETER" items = false ->
      area_aperture (fst st') = area_aperture (fst st)).
Proof.
  induction items as [|item items IH]; intros st st' H; simpl in H.
  - injection H as <-. repeat split; reflexivity.
  - destruct (init_item float st item) as [st1| |] eqn:E; try discriminate.
    cbn [bind] in H.
    destruct (init_item_other_keys st st1 item E)
      as (H1 & H2 & H3 & H4 & H5 & H6).
    destruct (IH st1 st' H) as (I1 & I2 & I3 & I4 & I5 & I6).
    repeat split; intros Hk; apply has_key_cons in Hk; destruct Hk as [Ha Hb].
    + rewrite I1, H1; auto.
    + rewrite I2, H2; auto.
    + rewrite I3, H3; auto.
    + rewrite I4, H4; auto.
    + rewrite I5, H5; auto.
    + rewrite I6, H6; auto.
Qed.

End Keys.

(** X12.  An attribute exists on the constructed object only if its key
    occurs in the parameter string: without a [LEAK_CURRENT] item the leak
    current is unset, without [MODEL] the model is [None], without [TARGET]
    the target is [None], without [TIME] there is no window, and without
    the two diameters the areas are unset. *)
Theorem attribute_needs_its_key (float : string -> parsed)
    (parameter_string : string) (d : list (R * R))
    (self : object pyfloat) (out : list message) :
  init float parameter_string d = Ok (self, out) ->
  (has_key "LEAK_CURRENT" (items_of parameter_string) = false ->
   leak_current self = None)
  /\ (has_key "MODEL" (items_of parameter_string) = false -> model self = None)
  /\ (has_key "TARGET" (items_of parameter_string) = false ->
      target self = None)
  /\ (has_key "TIME" (items_of parameter_string) = false -> time self = [])
  /\ (has_key "PARTICLE_DIAMETER" (items_of parameter_string) = false ->
      area_particle self = None)
  /\ (has_key "APERTURE_DIAMETER" (items_of parameter_string) = false ->
      area_aperture self = None).
Proof.
  unfold init, items_of. intros H.
  destruct (init_items float (fresh, []) _) as [[self0 out0]| |] eqn:E;
    try discriminate.
  cbn [bind fst snd] in H. injection H as <- <-.
  destruct (init_items_other_keys float _ _ _ E)
    as (H1 & H2 & H3 & H4 & H5 & H6).
  cbn [fst] in *.
  repeat split; intros Hk; cbn.
  - now rewrite H1.
  - now rewrite H2.
  - now rewrite H3.
  - now rewrite H4.
  - now rewrite H5.
  - now rewrite H6.
Qed.

Lemma attribute_needs_its_key_witness :
  leak_current (set_data two_samples (set_model (Some NP) fresh))
  = @None pyfloat.
Proof.
  refine (proj1 (attribute_needs_its_key (fun _ => Invalid) "MODEL=NP;FOO=1"
                   two_samples _ [MsgNotRecognized "FOO" "1"] eq_refl) _).
  reflexivity.
Defined.

End ConstructorFacts.

(** ** The current integrator: when [integrate] cannot complete *)

Module IntegrateEdgeFacts.
Import Current CurrentAux.
Open Scope R_scope.

Lemma restrict_window_keeps (self : IntegrateCurrent) :
  model (fst (restrict_window self)) = model self
  /\ target (fst (restrict_window self)) = target self.
Proof.
  pose proof (PredictorFacts.restrict_window_frame self) as H.
  rewrite <- H at 2 4. now destruct (fst (restrict_window self)).
Qed.

Lemma predictor_needs (self : IntegrateCurrent) (integral : R)
    (dep_rate : option R) :
  model self <> Some NP \/ target self = None ->
  snd (predictor self integral dep_rate) <> Ok tt.
Proof.
  intros H. unfold predictor, convert_number_to_coverage.
  destruct (model self) as [[|]|] eqn:Em.
  - destruct H as [H | H]; [congruence|]. rewrite H.
    destruct (attr (area_aperture self)); cbn [bind]; try discriminate.
    destruct (attr (area_particle self)); cbn [bind]; try discriminate.
    destruct (fdiv _ _); cbn [bind snd]; discriminate.
  - destruct (target self) as [[|t ts]|]; cbn; discriminate.
  - destruct (target self) as [[|t ts]|]; cbn; discriminate.
Qed.

(** X13.  [integrate] returns normally only on an object that has a leak
    current, the nanoparticle model and a target: with [leak_current]
    unset it raises [AttributeError] at once, printing nothing and changing
    nothing; with another model or no target it never ends normally. *)
Theorem integrate_needs_leak_model_target (self : IntegrateCurrent) :
  (leak_current self = None ->
   integrate self = (self, [], Raise AttributeError))
  /\ (model self <> Some NP \/ target self = None ->
      snd (integrate self) <> Ok tt).
Proof.
  split.
  - intros H. unfold integrate. now rewrite H.
  - intros H. unfold integrate.
    destruct (leak_current self) as [leak|]; [|discriminate].
    destruct (restrict_window_keeps self) as [Hm Ht].
    destruct (restrict_window self) as [self1 [[]|ex|]];
      cbn [fst] in Hm, Ht; [|discriminate..].
    assert (H1 : model self1 <> Some NP \/ target self1 = None)
      by (rewrite Hm, Ht; exact H).
    pose proof (predictor_needs self1
                  (integral_of leak (data self1))
                  (dep_rate_of leak (data self1)) H1) as Hp.
    destruct (predictor self1 _ _) as [out r]. exact Hp.
Qed.

End IntegrateEdgeFacts.

(** ** The current integrator: parameter strings with no item *)

Module EmptyStringFacts.
Import Current CurrentAux.
Open Scope string_scope.

Lemma lstrip_only_chars (chars : list ascii) (s : string) :
  only_chars chars s = true -> lstrip chars s = "".
Proof.
  induction s as [|c s IH]; simpl; [reflexivity|].
  intros H. apply andb_true_iff in H. destruct H as [-> H]. now apply IH.
Qed.

Lemma strip_only_chars (chars : list ascii) (s : string) :
  only_chars chars s = true -> strip chars s = "".
Proof.
  intros H. unfold strip. rewrite (lstrip_only_chars chars s H). reflexivity.
Qed.

(** X14.  A parameter string with no item at all, the empty string or
    semicolons only, does not give an object with default attributes:
    the single empty item left after stripping fails the [param, value]
    unpacking and the constructor raises [ValueError]. *)
Theorem init_rejects_empty_parameter_string (float : string -> parsed)
    (parameter_string : string) (d : list (R * R)) :
  only_chars [";"%char] parameter_string = true ->
  init float parameter_string d = Raise ValueError.
Proof.
  intros H. unfold init. rewrite (strip_only_chars _ _ H). reflexivity.
Qed.

Lemma init_rejects_empty_parameter_string_witness :
  init (fun _ => Invalid) ";;" two_samples = Raise ValueError.
Proof.
  apply (init_rejects_empty_parameter_string (fun _ => Invalid) ";;"
           two_samples).
  reflexivity.
Defined.

End EmptyStringFacts.

(** ** The overlap simulator: clouds without contacts *)

Module SparseFacts.
Import Overlap Aggregate.
Open Scope R_scope.

Lemma spread_weaken (r r' : R) (P : positions) :
  r' <= r -> spread r P -> spread r' P.
Proof. intros Hr H i j Hi Hj Hij. specialize (H i j Hi Hj Hij). lra. Qed.

(** Within a spread cloud [np.where] finds the particle itself only. *)
Lemma where_lt_spread (r : R) (P : positions) (Zs : heights) (i : nat) :
  spread r P -> length Zs = length P -> (i < length P)%nat ->
  Forall (fun j => j = i) (where_lt (Distance1 P Zs i) r).
Proof.
  intros Hsp HL Hi. apply Forall_forall. intros j Hj.
  apply where_lt_In in Hj. destruct Hj as [Hjl Hlt].
  rewrite OverlapResolver.Distance1_length in Hjl by exact HL.
  destruct (Nat.eq_dec j i) as [-> | Hne]; [reflexivity|].
  exfalso. rewrite OverlapResolver.Distance1_nth in Hlt by assumption.
  pose proof (OverlapResolver.planar_le_dist3 (nth i P (0, 0))
                (nth i Zs 0%Z) (nth j P (0, 0)) (nth j Zs 0%Z)) as Hle.
  specialize (Hsp i j Hi Hjl (not_eq_sym Hne)). unfold planar2 in Hsp. lra.
Qed.

Lemma contact_loop_self (P : positions) (i : nat) (index : list nat) :
  Forall (fun j => j = i) index ->
  forall st, fold_left (contact_step P i) index st = st.
Proof.
  induction 1 as [|g index -> _ IH]; intros st; cbn [fold_left];
    [reflexivity|].
  rewrite <- (IH st) at 2. f_equal.
  destruct st as [[Zs D] log]. unfold contact_step.
  now rewrite Nat.eqb_refl.
Qed.

Lemma particle_step_spread (P : positions) (Zs : heights)
    (log : list adjustment) (i : nat) :
  spread 35 P -> length Zs = length P -> (i < length P)%nat ->
  particle_step P (Zs, log) i = (Zs, log).
Proof.
  intros Hsp HL Hi. unfold particle_step.
  rewrite contact_loop_self by (now apply where_lt_spread). reflexivity.
Qed.

Lemma sweep_spread (P : positions) (Zs : heights) (log : list adjustment) :
  spread 35 P -> length Zs = length P -> sweep P (Zs, log) = (Zs, log).
Proof.
  intros Hsp HL. unfold sweep.
  assert (H : forall l, (forall i, In i l -> (i < length P)%nat) ->
            fold_left (particle_step P) l (Zs, log) = (Zs, log)).
  { induction l as [|i l IH]; intros Hl; cbn [fold_left]; [reflexivity|].
    rewrite particle_step_spread; auto.
    - apply IH. intros; apply Hl; now right.
    - apply Hl; now left. }
  apply H. intros i Hi. apply in_seq in Hi. lia.
Qed.

Lemma resolver_spread (P : positions) (Zs : heights) (log : list adjustment) :
  spread 35 P -> length Zs = length P -> resolver P (Zs, log) = (Zs, log).
Proof.
  intros Hsp HL. unfold resolver. now rewrite !sweep_spread.
Qed.

Lemma nth_full (n i : nat) (v : Z) :
  (i < n)%nat -> nth i (full n v) 0%Z = v.
Proof.
  unfold full. revert i. induction n as [|n IH]; intros [|i] H; simpl;
    try lia; auto. apply IH. lia.
Qed.

Lemma np_sum_const (c : R) (l : list nat) :
  np_sum (map (fun _ => c) l) = INR (length l) * c.
Proof.
  induction l as [|a l IH]; [simpl; lra|].
  change (np_sum (map (fun _ => c) (a :: l)))
    with (c + np_sum (map (fun _ => c) l)).
  change (length (a :: l)) with (S (length l)). rewrite S_INR, IH. lra.
Qed.

Lemma sumloss_spread (P : positions) (i : nat) :
  spread (Psize * 10 + 5) P -> (i < length P)%nat ->
  sumloss P (full (length P) 1) i = 12.
Proof.
  intros Hsp Hi. unfold sumloss, olapsum.
  assert (HL : length (full (length P) 1) = length P)
    by (unfold full; apply repeat_length).
  pose proof (where_lt_spread _ P _ i Hsp HL Hi) as Hw.
  assert (Hf : filter (fun b => negb (Nat.eqb b i))
                 (where_lt (Distance1 P (full (length P) 1) i)
                           (Psize * 10 + 5)) = []).
  { apply IntegralFacts.filter_none. eapply Forall_impl; [|exact Hw].
    intros j ->. now rewrite Nat.eqb_refl. }
  rewrite Hf, OverlapAccounting.btomsum_cases, nth_full by exact Hi.
  simpl. pose proof OverlapAccounting.SApar_lower.
  destruct (Rge_dec _ _); lra.
Qed.

(** X15.  In a cloud whose particles are pairwise at planar distance 35 or
    more the resolver moves nothing and records no adjustment; if they are
    43 ([Psize*10+5]) or more apart, every particle loses the base-layer
    penalty 12 only, the lost area is [12 * N] and the coverage ratio of the
    trial is [1 - 12 / SApar], whatever the positions. *)
Theorem sparse_cloud_trial (P : positions) :
  (spread 35 P ->
   resolver P (full (length P) 1, []) = (full (length P) 1, []))
  /\ (spread (Psize * 10 + 5) P -> (1 <= length P)%nat ->
      Area P (full (length P) 1) = 12 * INR (length P)
      /\ trial (length P) P = 1 - 12 / SApar).
Proof.
  assert (HL : length (full (length P) 1) = length P)
    by (unfold full; apply repeat_length).
  split.
  - intros Hsp. now apply resolver_spread.
  - intros Hsp HN.
    assert (HA : Area P (full (length P) 1) = 12 * INR (length P)).
    { unfold Area.
      rewrite (map_ext_in _ (fun _ => 12)).
      - rewrite np_sum_const, length_seq. lra.
      - intros i Hi. apply in_seq in Hi. apply sumloss_spread; [exact Hsp | lia]. }
    split; [exact HA|].
    unfold trial. rewrite resolver_spread; [|eapply spread_weaken;
      [|exact Hsp]; unfold Psize; lra | exact HL].
    cbn [fst]. unfold Ratio, SAtotal. rewrite HA.
    pose proof OverlapAccounting.SApar_lower.
    assert (1 <= INR (length P)) by (apply (le_INR 1); exact HN).
    field. lra.
Qed.

Lemma sqrt_at_least (r x : R) : 0 <= r -> r * r <= x -> r <= sqrt x.
Proof.
  intros Hr Hx. rewrite <- (sqrt_square r Hr). now apply sqrt_le_1_alt.
Qed.

Lemma sparse_cloud_trial_witness :
  Area [(0, 0); (50, 0)] (full 2 1) = 12 * INR 2
  /\ trial 2 [(0, 0); (50, 0)] = 1 - 12 / SApar.
Proof.
  apply (proj2 (sparse_cloud_trial [(0, 0); (50, 0)])); [|simpl; lia].
  intros i j Hi Hj Hij. simpl in Hi, Hj.
  apply sqrt_at_least; [unfold Psize; lra|].
  assert (Hc : (i = 0 /\ j = 1)%nat \/ (i = 1 /\ j = 0)%nat) by lia.
  destruct Hc as [[-> ->] | [-> ->]]; unfold planar2, Psize; simpl; lra.
Defined.

End SparseFacts.

(** ** The overlap simulator: size and effect of an adjustment *)

Module AdjustmentFacts.
Import Overlap Aggregate.
Open Scope R_scope.

Lemma Int_part_between (s : R) (lo hi : Z) :
  IZR lo <= s -> s <= IZR hi -> (lo <= Int_part s <= hi)%Z.
Proof.
  intros Hlo Hhi. pose proof (base_Int_part s) as [H1 H2].
  split.
  - assert (IZR lo - 1 < IZR (Int_part s)) by lra.
    assert (lo - 1 < Int_part s)%Z
      by (apply lt_IZR; rewrite minus_IZR; assumption).
    lia.
  - apply le_IZR. lra.
Qed.

Lemma adjustment_size (P : positions) (a : adjustment) :
  adjustment_ok P a ->
  (14 <= adj_new a - adj_base a <= 38)%Z
  /\ 35 < sqrt (planar2 P (adj_i a) (adj_g a)
                + IZR ((adj_new a - adj_base a) ^ 2)).
Proof.
  intros Hok. pose proof (OverlapResolver.radicand_lower_bound P a Hok) as Hlow.
  destruct Hok as [_ Hc Hr _ Hn].
  set (d := sqrt (planar2 P (adj_i a) (adj_g a))) in *.
  set (s := sqrt (adj_radicand a)) in *.
  assert (Hd0 : 0 <= d) by apply sqrt_pos.
  assert (Hd2 : d ^ 2 = planar2 P (adj_i a) (adj_g a)).
  { unfold d. simpl. rewrite Rmult_1_r. apply sqrt_sqrt.
    apply OverlapResolver.planar2_nonneg. }
  assert (Hs2 : s * s = adj_radicand a) by (apply sqrt_sqrt; lra).
  assert (Hs14 : 14 <= s) by (apply SparseFacts.sqrt_at_least; lra).
  assert (Hrad_hi : adj_radicand a <= 1444).
  { rewrite Hr. unfold Psize. pose proof (pow2_ge_0 d). lra. }
  assert (Hs38 : s <= 38) by nra.
  replace (adj_new a - adj_base a)%Z with (Int_part s) by lia.
  pose proof (Int_part_between s 14 38 Hs14 Hs38) as Hk.
  split; [exact Hk|].
  pose proof (base_Int_part s) as [Hk1 Hk2].
  set (k := Int_part s) in *.
  assert (Hk13 : 13 < IZR k) by lra.
  replace (IZR (k ^ 2)) with (IZR k * IZR k)
    by (rewrite Z.pow_2_r, mult_IZR; reflexivity).
  apply Rlt_le_trans with (sqrt (36 * 36));
    [rewrite sqrt_square by lra; lra|].
  apply sqrt_le_1_alt. rewrite <- Hd2.
  assert (d ^ 2 = 1444 - s * s) by (rewrite Hs2, Hr; unfold Psize; lra).
  nra.
Qed.

(** X16.  Every stacking adjustment of a trial lifts the neighbour to
    between 14 and 38 above the height it was synchronized to, and at that
    height difference its 3D distance to the current particle exceeds the
    contact radius 35: a neighbour just stacked is out of contact with the
    particle that stacked it. *)
Theorem adjustment_lifts_out_of_contact (P : positions) :
  Forall (fun a =>
            (14 <= adj_new a - adj_base a <= 38)%Z
            /\ 35 < sqrt (planar2 P (adj_i a) (adj_g a)
                          + IZR ((adj_new a - adj_base a) ^ 2)))
         (snd (resolver P (full (length P) 1, []))).
Proof.
  eapply Forall_impl; [|apply OverlapResolver.trial_log_ok].
  intros a Hok. now apply adjustment_size.
Qed.

End AdjustmentFacts.

(** ** The overlap simulator: when the loss of a particle is capped *)

Module CapFacts.
Import Overlap Aggregate.
Open Scope R_scope.

Lemma PI_upper : PI < 3.15.
Proof.
  pose proof (PI_2_3_7_ineq 1) as [_ H].
  unfold sum_f_R0, tg_alt, PI_2_3_7_tg, Ratan_seq in H. simpl in H. lra.
Qed.

Lemma SApar_bounds : 43 < SApar < 45.5.
Proof.
  split; [apply OverlapAccounting.SApar_lower|].
  unfold SApar. pose proof PI_upper. lra.
Qed.

Lemma olapsum_count (P : positions) (Zs : heights) (i : nat) :
  olapsum P Zs i = INR (neighbours P Zs i) * 8.4.
Proof. unfold olapsum, neighbours. apply SparseFacts.np_sum_const. Qed.

(** X17.  The loss of a particle depends on its number [k] of neighbours
    within the loss radius and on whether it is in the base layer (height
    below 5) only: it is [8.4 * k], plus 12 in the base layer, and the cap
    at the particle area [SApar] takes over from 6 neighbours on, from 4 on
    in the base layer. *)
Theorem loss_cap_thresholds (P : positions) (Zs : heights) (i : nat) :
  let k := neighbours P Zs i in
  let b := Z.ltb (nth i Zs 0%Z) 5 in
  sumloss P Zs i
  = if (6 <=? k)%nat || (b && (4 <=? k)%nat) then SApar
    else 8.4 * INR k + (if b then 12 else 0).
Proof.
  intros k b. unfold sumloss.
  rewrite olapsum_count, OverlapAccounting.btomsum_cases.
  fold k b. pose proof SApar_bounds as [Hlo Hhi].
  destruct (Nat.leb_spec 6 k) as [H6 | H6].
  - cbn [orb]. apply (le_INR 6) in H6. simpl (INR 6) in H6.
    destruct (Rge_dec _ _) as [_ | Hn]; [reflexivity|].
    exfalso. apply Hn. destruct b; lra.
  - cbn [orb].
    assert (Hk : (k = 0 \/ k = 1 \/ k = 2 \/ k = 3 \/ k = 4 \/ k = 5)%nat)
      by lia.
    destruct b; cbn [andb].
    + destruct (Nat.leb_spec 4 k) as [H4 | H4].
      * assert (Hk' : (k = 4 \/ k = 5)%nat) by lia.
        destruct (Rge_dec _ _) as [_ | Hn]; [reflexivity|].
        exfalso. apply Hn. destruct Hk' as [-> | ->]; simpl; lra.
      * assert (Hk' : (k = 0 \/ k = 1 \/ k = 2 \/ k = 3)%nat) by lia.
        destruct (Rge_dec _ _) as [Hge | _]; [|lra].
        exfalso. destruct Hk' as [-> | [-> | [-> | ->]]]; simpl in Hge; lra.
    + destruct (Rge_dec _ _) as [Hge | _]; [|lra].
      exfalso.
      destruct Hk as [-> | [-> | [-> | [-> | [-> | ->]]]]]; simpl in Hge; lra.
Qed.

End CapFacts.

(** ** The overlap simulator: mean ratio and simulated charge *)

Module AggregateFacts.
Import Overlap Aggregate.
Open Scope R_scope.

Lemma Ratio_unit (N : nat) (P : positions) (Zs : heights) :
  (1 <= N)%nat -> length P = N -> 0 <= Ratio N P Zs <= 1.
Proof.
  intros HN HP.
  pose proof (OverlapAccounting.Area_bounds P Zs) as HA. rewrite HP in HA.
  pose proof OverlapAccounting.SApar_lower as HS.
  assert (HNR : 1 <= INR N) by (apply (le_INR 1); exact HN).
  assert (Hpos : 0 < INR N * SApar) by nra.
  unfold Ratio, SAtotal. split.
  - apply Rmult_le_pos; [lra | left; now apply Rinv_0_lt_compat].
  - apply (Rmult_le_reg_r (INR N * SApar)); [exact Hpos|].
    unfold Rdiv. rewrite Rmult_assoc, Rinv_l by lra. lra.
Qed.

Lemma np_mean_unit (l : list R) :
  l <> [] -> Forall (fun v => 0 <= v <= 1) l -> 0 <= np_mean l <= 1.
Proof.
  intros Hne H. apply np_sum_bounds in H.
  assert (Hlen : 0 < INR (length l)).
  { apply lt_0_INR. destruct l; [congruence | simpl; lia]. }
  unfold np_mean. split.
  - apply Rmult_le_pos; [lra | left; now apply Rinv_0_lt_compat].
  - apply (Rmult_le_reg_r (INR (length l))); [exact Hlen|].
    unfold Rdiv. rewrite Rmult_assoc, Rinv_l by lra. lra.
Qed.

Lemma Total_Theory_Charge_nonneg (Loading : R) :
  0 <= Loading -> 0 <= Total_Theory_Charge Loading.
Proof.
  intros H. unfold Total_Theory_Charge, Number_of_particles,
    Charge_per_particle, Area_of_particle, Psize.
  apply Rmult_le_pos; nra.
Qed.

(** X18.  For a non-negative loading and at least one trial on clouds of
    [N >= 1] particles, the mean coverage ratio [MR] lies in [[0, 1]], so
    the simulated charge [T = Total_Theory_Charge * MR] is non-negative and
    never exceeds the theoretical charge of that loading. *)
Theorem simulated_charge_bounded (N : nat) (Loading : R)
    (draws : list positions) :
  (1 <= N)%nat -> 0 <= Loading -> draws <> [] ->
  Forall (fun P => length P = N) draws ->
  0 <= MR N draws <= 1
  /\ 0 <= T N Loading draws <= Total_Theory_Charge Loading.
Proof.
  intros HN HL Hne Hlen.
  assert (HMR : 0 <= MR N draws <= 1).
  { unfold MR, Ratios. apply np_mean_unit.
    - destruct draws; [congruence | discriminate].
    - rewrite Forall_map. eapply Forall_impl; [|exact Hlen].
      intros P HP. unfold trial. now apply Ratio_unit. }
  split; [exact HMR|].
  pose proof (Total_Theory_Charge_nonneg Loading HL). unfold T. nra.
Qed.

Lemma simulated_charge_bounded_witness :
  0 <= MR 2 [[(0, 0); (50, 0)]] <= 1
  /\ 0 <= T 2 565 [[(0, 0); (50, 0)]] <= Total_Theory_Charge 565.
Proof.
  apply (simulated_charge_bounded 2 565 [[(0, 0); (50, 0)]]);
    [lia | lra | discriminate | repeat constructor].
Defined.

End AggregateFacts.

(** ** The overlap simulator: settled states, symmetry, and a pair in contact *)

Module SettledFacts.
Import Overlap Aggregate.
Open Scope R_scope.

Lemma dist3_sym (pi pj : R * R) (zi zj : Z) :
  dist3 pi zi pj zj = dist3 pj zj pi zi.
Proof.
  unfold dist3. f_equal.
  replace ((zi - zj) ^ 2)%Z with ((zj - zi) ^ 2)%Z by ring. ring.
Qed.

Lemma where_lt_settled (P : positions) (Zs : heights) (i : nat) :
  settled P Zs -> length Zs = length P -> (i < length P)%nat ->
  Forall (fun j => j = i) (where_lt (Distance1 P Zs i) 35).
Proof.
  intros Hs HL Hi. apply Forall_forall. intros j Hj.
  apply where_lt_In in Hj. destruct Hj as [Hjl Hlt].
  rewrite OverlapResolver.Distance1_length in Hjl by exact HL.
  destruct (Nat.eq_dec j i) as [-> | Hne]; [reflexivity|].
  exfalso. rewrite OverlapResolver.Distance1_nth in Hlt by assumption.
  specialize (Hs i j Hi Hjl (not_eq_sym Hne)). lra.
Qed.

Lemma particle_step_settled (P : positions) (Zs : heights)
    (log : list adjustment) (i : nat) :
  settled P Zs -> length Zs = length P -> (i < length P)%nat ->
  particle_step P (Zs, log) i = (Zs, log).
Proof.
  intros Hs HL Hi. unfold particle_step.
  rewrite SparseFacts.contact_loop_self by (now apply where_lt_settled).
  reflexivity.
Qed.

Lemma fold_settled (P : positions) (Zs : heights) (log : list adjustment) :
  settled P Zs -> length Zs = length P ->
  forall l, (forall i, In i l -> (i < length P)%nat) ->
  fold_left (particle_step P) l (Zs, log) = (Zs, log).
Proof.
  intros Hs HL. induction l as [|i l IH]; intros Hl; cbn [fold_left];
    [reflexivity|].
  rewrite particle_step_settled; auto.
  - apply IH. intros; apply Hl; now right.
  - apply Hl; now left.
Qed.

Lemma sweep_settled (P : positions) (Zs : heights) (log : list adjustment) :
  settled P Zs -> length Zs = length P -> sweep P (Zs, log) = (Zs, log).
Proof.
  intros Hs HL. unfold sweep. apply fold_settled; auto.
  intros i Hi. apply in_seq in Hi. lia.
Qed.

(** X19.  A state in which no two particles are in contact (all pairwise
    3D distances at least 35) is a fixed point: a sweep, and so any number
    of sweeps and the whole resolver, leaves every height as it is and
    records no adjustment. *)
Theorem settled_is_fixed_point (P : positions) (Zs : heights)
    (log : list adjustment) :
  settled P Zs -> length Zs = length P ->
  sweep P (Zs, log) = (Zs, log)
  /\ (forall n, Nat.iter n (sweep P) (Zs, log) = (Zs, log))
  /\ resolver P (Zs, log) = (Zs, log).
Proof.
  intros Hs HL.
  assert (H1 : sweep P (Zs, log) = (Zs, log)) by (now apply sweep_settled).
  assert (Hn : forall n, Nat.iter n (sweep P) (Zs, log) = (Zs, log)).
  { induction n as [|n IH]; simpl; [reflexivity|]. now rewrite IH. }
  repeat split; [exact H1 | exact Hn|].
  unfold resolver. now rewrite !H1.
Qed.

Lemma settled_is_fixed_point_witness :
  resolver [(0, 0); (50, 0)] ([1; 1]%Z, []) = ([1; 1]%Z, []).
Proof.
  refine (proj2 (proj2 (settled_is_fixed_point [(0, 0); (50, 0)] [1; 1]%Z []
                          _ eq_refl))).
  intros i j Hi Hj Hij. simpl in Hi, Hj.
  apply SparseFacts.sqrt_at_least; [lra|].
  assert (Hc : (i = 0 /\ j = 1)%nat \/ (i = 1 /\ j = 0)%nat) by lia.
  destruct Hc as [[-> ->] | [-> ->]]; simpl; lra.
Defined.

(** X20.  Being within a radius is mutual: particle [j] is among the
    indices [np.where] returns for particle [i] exactly when [i] is among
    those returned for [j], for the contact radius and the loss radius
    alike; so a per-neighbour penalty charged to one particle of a pair is
    charged to the other too. *)
Theorem neighbourhood_is_symmetric (P : positions) (Zs : heights)
    (r : R) (i j : nat) :
  length Zs = length P -> (i < length P)%nat -> (j < length P)%nat ->
  (In j (where_lt (Distance1 P Zs i) r)
   <-> In i (where_lt (Distance1 P Zs j) r)).
Proof.
  intros HL Hi Hj. rewrite !where_lt_In.
  rewrite !OverlapResolver.Distance1_length by exact HL.
  rewrite !OverlapResolver.Distance1_nth by assumption.
  rewrite (dist3_sym (nth j P (0, 0))). tauto.
Qed.

Lemma neighbourhood_is_symmetric_witness :
  In 1%nat (where_lt (Distance1 [(0, 0); (1, 0)] [1; 1]%Z 0) 35)
  <-> In 0%nat (where_lt (Distance1 [(0, 0); (1, 0)] [1; 1]%Z 1) 35).
Proof.
  apply (neighbourhood_is_symmetric [(0, 0); (1, 0)] [1; 1]%Z 35 0 1);
    [reflexivity | simpl; lia | simpl; lia].
Defined.

End SettledFacts.

(** ** The overlap simulator: two particles in contact *)

Module PairFacts.
Import Overlap Aggregate.
Open Scope R_scope.

Section Pair.
Variables p q : R * R.

Let d : R := sqrt (planar2 [p; q] 0 1).
Let k : Z := Int_part (sqrt ((Psize * 10) ^ 2 - d ^ 2)).

Hypothesis contact : d < 35.

Lemma pair_d_nonneg : 0 <= d.
Proof. apply sqrt_pos. Qed.

Lemma dist3_self (a : R * R) (z : Z) : dist3 a z a z = 0.
Proof.
  rewrite OverlapResolver.dist3_same_height.
  replace ((fst a - fst a) ^ 2 + (snd a - snd a) ^ 2) with 0 by ring.
  apply sqrt_0.
Qed.

Lemma dist3_level (z : Z) : dist3 p z q z = d.
Proof. rewrite OverlapResolver.dist3_same_height. reflexivity. Qed.

Lemma where_lt_two (a b r : R) :
  a < r -> b < r -> where_lt [a; b] r = [0; 1]%nat.
Proof.
  intros Ha Hb. unfold where_lt; simpl.
  destruct (Rlt_dec a r); [|contradiction].
  destruct (Rlt_dec b r); [reflexivity | contradiction].
Qed.

Lemma where_lt_first (a b r : R) :
  a < r -> r <= b -> where_lt [a; b] r = [0%nat].
Proof.
  intros Ha Hb. unfold where_lt; simpl.
  destruct (Rlt_dec a r); [|contradiction].
  destruct (Rlt_dec b r); [lra | reflexivity].
Qed.

Let pair_adjustment : adjustment :=
  {| adj_i := 0; adj_g := 1; adj_base := 1;
     adj_radicand := (Psize * 10) ^ 2 - d ^ 2; adj_new := 1 + k |}.

Lemma pair_adjustment_ok : adjustment_ok [p; q] pair_adjustment.
Proof. constructor; simpl; auto; try lia. Qed.

Lemma pair_first_step :
  particle_step [p; q] ([1; 1]%Z, []) 0 = ([1; 1 + k]%Z, [pair_adjustment]).
Proof.
  unfold particle_step.
  assert (HD : Distance1 [p; q] [1; 1]%Z 0 = [0; d]).
  { unfold Distance1; simpl. now rewrite dist3_self, dist3_level. }
  rewrite HD, where_lt_two by (pose proof pair_d_nonneg; lra).
  cbn [fold_left]. unfold contact_step at 2. cbn [Nat.eqb].
  unfold contact_step. cbn [Nat.eqb nth Z.eqb Pos.eqb setitem app].
  rewrite OverlapResolver.trunc_add_nonneg by (try lia; apply sqrt_pos).
  reflexivity.
Qed.

Lemma pair_lifted :
  (14 <= k <= 38)%Z /\ 35 < dist3 p 1 q (1 + k) <= 38.
Proof.
  destruct (AdjustmentFacts.adjustment_size [p; q] pair_adjustment
              pair_adjustment_ok) as [Hk Hfar].
  cbn [adj_new adj_base adj_i adj_g pair_adjustment] in Hk, Hfar.
  replace (1 + k - 1)%Z with k in Hk, Hfar by lia.
  split; [exact Hk|].
  assert (E : dist3 p 1 q (1 + k) = sqrt (planar2 [p; q] 0 1 + IZR (k ^ 2))).
  { unfold dist3, planar2; cbn [nth]. do 2 f_equal.
    replace (1 - (1 + k))%Z with (- k)%Z by lia. f_equal. ring. }
  rewrite E. split; [exact Hfar|].
  replace 38 with (sqrt (38 * 38)) by (apply sqrt_square; lra).
  apply sqrt_le_1_alt.
  assert (Hd2 : planar2 [p; q] 0 1 = d ^ 2).
  { unfold d. simpl. rewrite Rmult_1_r. symmetry. apply sqrt_sqrt.
    apply OverlapResolver.planar2_nonneg. }
  pose proof pair_d_nonneg as Hd0.
  assert (Hrad : 0 <= (Psize * 10) ^ 2 - d ^ 2) by (unfold Psize; nra).
  pose proof (base_Int_part (sqrt ((Psize * 10) ^ 2 - d ^ 2))) as [Hk1 _].
  fold k in Hk1.
  pose proof (sqrt_sqrt _ Hrad) as Hs2.
  pose proof (sqrt_pos ((Psize * 10) ^ 2 - d ^ 2)) as Hs0.
  assert (0 <= IZR k) by (apply IZR_le; lia).
  rewrite Z.pow_2_r, mult_IZR, Hd2.
  unfold Psize in *. nra.
Qed.

Lemma pair_settled : settled [p; q] [1; 1 + k]%Z.
Proof.
  destruct pair_lifted as [_ [Hfar _]].
  intros i j Hi Hj Hij. simpl in Hi, Hj.
  assert (Hc : (i = 0 /\ j = 1)%nat \/ (i = 1 /\ j = 0)%nat) by lia.
  destruct Hc as [[-> ->] | [-> ->]]; cbn [nth].
  - lra.
  - rewrite SettledFacts.dist3_sym. lra.
Qed.

Lemma pair_resolved :
  resolver [p; q] (full 2 1, []) = ([1; 1 + k]%Z, [pair_adjustment]).
Proof.
  assert (H1 : sweep [p; q] (full 2 1, [])
               = ([1; 1 + k]%Z, [pair_adjustment])).
  { unfold sweep. cbn [length seq fold_left full repeat]. unfold heights.
    rewrite pair_first_step.
    apply SettledFacts.particle_step_settled;
      [apply pair_settled | reflexivity | simpl; lia]. }
  assert (H2 : sweep [p; q] ([1; 1 + k]%Z, [pair_adjustment])
               = ([1; 1 + k]%Z, [pair_adjustment]))
    by (apply SettledFacts.sweep_settled; [apply pair_settled | reflexivity]).
  unfold resolver. rewrite H1. now rewrite !H2.
Qed.

Lemma pair_area : Area [p; q] [1; 1 + k]%Z = 28.8.
Proof.
  destruct pair_lifted as [Hk [Hfar Hnear]].
  pose proof CapFacts.SApar_bounds as [Hlo Hhi].
  unfold Area. cbn [length seq map]. unfold sumloss, olapsum.
  assert (HD0 : Distance1 [p; q] [1; 1 + k]%Z 0
                = [0; dist3 p 1 q (1 + k)]).
  { unfold Distance1; simpl. now rewrite dist3_self. }
  assert (HD1 : Distance1 [p; q] [1; 1 + k]%Z 1
                = [dist3 p 1 q (1 + k); 0]).
  { unfold Distance1; simpl.
    now rewrite dist3_self, (SettledFacts.dist3_sym q). }
  rewrite HD0, HD1.
  rewrite !where_lt_two by (unfold Psize; lra).
  rewrite !OverlapAccounting.btomsum_cases. cbn [nth filter Nat.eqb negb map].
  replace (1 + k <? 5)%Z with false by (symmetry; apply Z.ltb_ge; lia).
  change (1 <? 5)%Z with true. unfold np_sum; cbn [fold_right].
  destruct (Rge_dec (8.4 + 0 + 12) SApar); [lra|].
  destruct (Rge_dec (8.4 + 0 + 0) SApar); [lra|]. lra.
Qed.

End Pair.

(** X21.  Two particles at planar distance [d < 35]: the first sweep stacks
    the second particle on the first, once, at height
    [1 + floor (sqrt (1444 - d^2))], between 15 and 39; the pair is then
    out of contact and the remaining sweeps change nothing.  The first
    particle stays in the base layer, each of the two is charged one
    neighbour, and the lost area is [20.4 + 8.4 = 28.8]. *)
Theorem pair_in_contact (p q : R * R) :
  let d := sqrt (planar2 [p; q] 0 1) in
  let k := Int_part (sqrt ((Psize * 10) ^ 2 - d ^ 2)) in
  d < 35 ->
  fst (resolver [p; q] (full 2 1, [])) = [1; 1 + k]%Z
  /\ length (snd (resolver [p; q] (full 2 1, []))) = 1%nat
  /\ (14 <= k <= 38)%Z
  /\ Area [p; q] [1; 1 + k]%Z = 28.8
  /\ trial 2 [p; q] = 1 - 28.8 / (2 * SApar).
Proof.
  intros d k Hd.
  pose proof (pair_resolved p q Hd) as Hres.
  pose proof (pair_area p q Hd) as HA.
  destruct (pair_lifted p q Hd) as [Hk _].
  fold d k in Hres, HA, Hk.
  rewrite Hres. cbn [fst snd length]. repeat split; try assumption; try lia.
  unfold trial. rewrite Hres. cbn [fst]. unfold Ratio, SAtotal. rewrite HA.
  pose proof CapFacts.SApar_bounds. simpl (INR 2). field. lra.
Qed.

Lemma pair_in_contact_witness :
  fst (resolver [(0, 0); (1, 0)] (full 2 1, []))
  = [1%Z;
     (1 + Int_part (sqrt ((Psize * 10) ^ 2
                          - sqrt (planar2 [(0, 0); (1, 0)] 0 1) ^ 2))%R)%Z].
Proof.
  refine (proj1 (pair_in_contact (0, 0) (1, 0) _)).
  apply Rlt_le_trans with (sqrt (35 * 35)); [|rewrite sqrt_square; lra].
  apply sqrt_lt_1_alt. split; [apply OverlapResolver.planar2_nonneg|].
  unfold planar2; simpl. lra.
Defined.

End PairFacts.

(** ** The overlap simulator: the error bar *)

Module SpreadFacts.
Import Overlap Aggregate.
Open Scope R_scope.

Lemma squares_about (c m : R) (l : list R) :
  np_sum (map (fun x => (x - c) ^ 2) l)
  = np_sum (map (fun x => (x - m) ^ 2) l)
    + 2 * (m - c) * (np_sum l - INR (length l) * m)
    + INR (length l) * (m - c) ^ 2.
Proof.
  induction l as [|x l IH]; [simpl; lra|].
  change (np_sum (map (fun y => (y - c) ^ 2) (x :: l)))
    with ((x - c) ^ 2 + np_sum (map (fun y => (y - c) ^ 2) l)).
  change (np_sum (map (fun y => (y - m) ^ 2) (x :: l)))
    with ((x - m) ^ 2 + np_sum (map (fun y => (y - m) ^ 2) l)).
  change (np_sum (x :: l)) with (x + np_sum l).
  change (length (x :: l)) with (S (length l)).
  rewrite S_INR, IH. ring.
Qed.

Lemma np_std_unit (l : list R) :
  l <> [] -> Forall (fun v => 0 <= v <= 1) l -> 0 <= np_std l <= 1 / 2.
Proof.
  intros Hne H. unfold np_std. split; [apply sqrt_pos|].
  assert (Hlen : 0 < INR (length l)).
  { apply lt_0_INR. destruct l; [congruence | simpl; lia]. }
  set (m := np_mean l).
  assert (Hm : np_sum l - INR (length l) * m = 0).
  { unfold m, np_mean. field. lra. }
  pose proof (squares_about (1 / 2) m l) as Hsq. rewrite Hm in Hsq.
  assert (Hhalf : np_sum (map (fun x => (x - 1 / 2) ^ 2) l)
                  <= INR (length l) * (1 / 4)).
  { assert (Hb : Forall (fun v => 0 <= v <= 1 / 4)
                        (map (fun x => (x - 1 / 2) ^ 2) l)).
    { rewrite Forall_map. eapply Forall_impl; [|exact H].
      intros v Hv. cbv beta.
      replace ((v - 1 / 2) ^ 2) with (1 / 4 - v * (1 - v)) by field.
      assert (0 <= v * (1 - v)) by (apply Rmult_le_pos; lra).
      assert (v * (1 - v) <= 1 / 4)
        by (pose proof (pow2_ge_0 (v - 1 / 2)); nra).
      lra. }
    apply np_sum_bounds in Hb. rewrite length_map in Hb. lra. }
  pose proof (pow2_ge_0 (m - 1 / 2)) as Hp.
  assert (Hvar : np_mean (map (fun x => (x - m) ^ 2) l) <= 1 / 4).
  { unfold np_mean. rewrite length_map.
    apply (Rmult_le_reg_r (INR (length l))); [exact Hlen|].
    unfold Rdiv at 1. rewrite Rmult_assoc, Rinv_l by lra. nra. }
  replace (1 / 2) with (sqrt (1 / 2 * (1 / 2))) by (apply sqrt_square; lra).
  apply sqrt_le_1_alt. lra.
Qed.

(** X22.  For a non-negative loading and at least one trial on clouds of
    [N >= 1] particles, the standard deviation of the ratios is at most
    1/2, so the error bar [ST = Total_Theory_Charge * STD] is non-negative
    and at most half the theoretical charge. *)
Theorem error_bar_bounded (N : nat) (Loading : R) (draws : list positions) :
  (1 <= N)%nat -> 0 <= Loading -> draws <> [] ->
  Forall (fun P => length P = N) draws ->
  0 <= STD N draws <= 1 / 2
  /\ 0 <= ST N Loading draws <= Total_Theory_Charge Loading / 2.
Proof.
  intros HN HL Hne Hlen.
  assert (HS : 0 <= STD N draws <= 1 / 2).
  { unfold STD, Ratios. apply np_std_unit.
    - destruct draws; [congruence | discriminate].
    - rewrite Forall_map. eapply Forall_impl; [|exact Hlen].
      intros P HP. unfold trial. now apply AggregateFacts.Ratio_unit. }
  split; [exact HS|].
  pose proof (AggregateFacts.Total_Theory_Charge_nonneg Loading HL).
  unfold ST. nra.
Qed.

(** The two draws of [two_draws] give different ratios, so their
    standard deviation is not zero. *)
Lemma far_pair_ratio : trial 2 [(0, 0); (50, 0)] = 1 - 12 / SApar.
Proof.
  set (P := [(0, 0); (50, 0)] : positions).
  assert (Hsp : spread (Psize * 10 + 5) P).
  { intros i j Hi Hj Hij. simpl in Hi, Hj.
    apply SparseFacts.sqrt_at_least; [unfold Psize; lra|].
    assert (Hc : (i = 0 /\ j = 1)%nat \/ (i = 1 /\ j = 0)%nat) by lia.
    destruct Hc as [[-> ->] | [-> ->]]; unfold planar2, Psize; simpl; lra. }
  unfold trial.
  rewrite (SparseFacts.resolver_spread P (full 2 1) []);
    [|eapply SparseFacts.spread_weaken; [|exact Hsp]; unfold Psize; lra
     |reflexivity].
  cbn [fst]. unfold Ratio, SAtotal, Area. cbn [length seq map P].
  fold P. change (full 2 1) with (full (length P) 1).
  rewrite !SparseFacts.sumloss_spread by (try exact Hsp; simpl; lia).
  pose proof CapFacts.SApar_bounds. unfold np_sum; cbn [fold_right].
  simpl (INR 2). field. lra.
Qed.

Lemma near_pair_ratio : trial 2 [(0, 0); (1, 0)] = 1 - 14.4 / SApar.
Proof.
  assert (Hd : sqrt (planar2 [(0, 0); (1, 0)] 0 1) < 35).
  { apply Rlt_le_trans with (sqrt (35 * 35)); [|rewrite sqrt_square; lra].
    apply sqrt_lt_1_alt. split; [apply OverlapResolver.planar2_nonneg|].
    unfold planar2; simpl. lra. }
  unfold trial. rewrite (PairFacts.pair_resolved (0, 0) (1, 0) Hd).
  cbn [fst]. unfold Ratio, SAtotal.
  rewrite (PairFacts.pair_area (0, 0) (1, 0) Hd).
  pose proof CapFacts.SApar_bounds. simpl (INR 2).
  replace 28.8 with (2 * 14.4) by lra. field. lra.
Qed.

Lemma two_draws_spread : STD 2 two_draws = 1.2 / SApar.
Proof.
  pose proof CapFacts.SApar_bounds as [Hlo Hhi].
  unfold STD, Ratios, two_draws. cbn [map].
  rewrite far_pair_ratio, near_pair_ratio.
  unfold np_std, np_mean, np_sum. cbn [map fold_right length].
  simpl (INR 2).
  assert (Hu : 0 < / SApar) by (apply Rinv_0_lt_compat; lra).
  unfold Rdiv in *. revert Hu. generalize (/ SApar). intros u Hu.
  replace ((1 - 12 * u + (1 - 14.4 * u + 0)) * / (1 + 1))
    with (1 - 13.2 * u) by lra.
  replace (1 - 12 * u - (1 - 13.2 * u)) with (1.2 * u) by lra.
  replace (1 - 14.4 * u - (1 - 13.2 * u)) with (- (1.2 * u)) by lra.
  replace (((1.2 * u) ^ 2 + ((- (1.2 * u)) ^ 2 + 0)) * / (1 + 1))
    with ((1.2 * u) * (1.2 * u)) by (simpl; lra).
  apply sqrt_square. nra.
Qed.

Lemma error_bar_bounded_witness :
  0 <= STD 2 two_draws <= 1 / 2
  /\ 0 <= ST 2 565 two_draws <= Total_Theory_Charge 565 / 2.
Proof.
  apply (error_bar_bounded 2 565 two_draws);
    [lia | lra | discriminate | repeat constructor].
Defined.

End SpreadFacts.

(** ** The current integrator: the conversions, the other way round *)

Module ConversionFacts.
Import Current CurrentAux.
Open Scope R_scope.

(** X23.  For the nanoparticle model with non-zero areas, converting a
    particle number to a coverage and back gives the number again (over
    the reals); with positive areas a larger number gives a larger
    coverage. *)
Theorem number_round_trip (self : IntegrateCurrent) (ap aa : R) :
  model self = Some NP ->
  area_particle self = Some ap -> area_aperture self = Some aa ->
  ap <> 0 -> aa <> 0 ->
  (forall number, exists coverage,
     convert_number_to_coverage self number = ([], Ok (Some coverage))
     /\ convert_coverage_to_number self coverage = ([], Ok (Some number)))
  /\ (0 < ap -> 0 < aa -> forall n1 n2 c1 c2,
        convert_number_to_coverage self n1 = ([], Ok (Some c1)) ->
        convert_number_to_coverage self n2 = ([], Ok (Some c2)) ->
        n1 < n2 -> c1 < c2).
Proof.
  intros Hm Hap Haa Hap0 Haa0.
  assert (E : forall number,
            convert_number_to_coverage self number
            = ([], Ok (Some (number * 100 / aa * ap)))).
  { intros number. unfold convert_number_to_coverage, fdiv.
    rewrite Hm, Hap, Haa; cbn [attr bind].
    destruct (Req_dec_T aa 0) as [E | _]; [contradiction | reflexivity]. }
  split.
  - intros number. exists (number * 100 / aa * ap). split; [apply E|].
    unfold convert_coverage_to_number, fdiv.
    rewrite Hm, Hap, Haa; cbn [attr bind].
    destruct (Req_dec_T ap 0) as [E' | _]; [contradiction|]. cbn [bind].
    do 3 f_equal. field. lra.
  - intros Hp Ha n1 n2 c1 c2 H1 H2 Hlt.
    rewrite E in H1, H2. injection H1 as <-. injection H2 as <-.
    assert (0 < 100 / aa * ap).
    { apply Rmult_lt_0_compat; [|exact Hp].
      apply Rmult_lt_0_compat; [lra | now apply Rinv_0_lt_compat]. }
    replace (n1 * 100 / aa * ap) with (n1 * (100 / aa * ap)) by (field; lra).
    replace (n2 * 100 / aa * ap) with (n2 * (100 / aa * ap)) by (field; lra).
    now apply Rmult_lt_compat_r.
Qed.

Lemma number_round_trip_witness :
  exists coverage,
    convert_number_to_coverage (example_self two_samples []) 1e12
    = ([], Ok (Some coverage))
    /\ convert_coverage_to_number (example_self two_samples []) coverage
       = ([], Ok (Some 1e12)).
Proof.
  refine (proj1 (number_round_trip (example_self two_samples [])
                   (PI * (1 / 2 * 1e-9) ^ 2) (PI * (1 / 2 * 1e-3) ^ 2)
                   eq_refl eq_refl eq_refl _ _) 1e12);
    apply PredictorFacts.example_areas_nonzero.
Defined.

End ConversionFacts.
